(** * ollama-chatbot: the TTS bridge route and the chat controller

    A shallow embedding of the two source files of the repository:

    - the [POST /api/tts] route handler (validation, the Python child
      process, its [close] and [error] listeners), and
    - the orchestration functions of [Chatbot.tsx] ([generateTTS],
      [stopTTS], [sendMessage]) over the React state of the component.

    JavaScript strings are sequences of UTF-16 code units ([list N]).  The
    platform functions the handlers call ([String.prototype.trim],
    [String.prototype.split], [JSON.parse], [JSON.stringify] with
    [Number::toString], [Buffer.prototype.toString], [atob]) are not part of
    the repository; they are modelled after ECMA-262, the WHATWG standards
    and the documentation of Node.js.

    The file has two parts: the model (all definitions), then the facts. *)

From Stdlib Require Import NArith ZArith Ascii String DecimalString.
From stdpp Require Import base numbers option list gmap.

(** * Part I: the model *)

(** ** JavaScript strings *)

Module JsString.

Local Open Scope N_scope.

(** A string value: its UTF-16 code units. *)
Abbreviation jsstring := (list N).

(** A source literal (every literal of the two files is ASCII). *)
Definition lit (s : string) : jsstring :=
  N_of_ascii <$> list_ascii_of_string s.

(** ECMA-262 [WhiteSpace] and [LineTerminator] code points: the characters
    that [trim] strips. *)
Definition is_whitespace (c : N) : bool :=
  ((9 <=? c) && (c <=? 13))          (* TAB, LF, VT, FF, CR *)
  || (c =? 32)                       (* SP *)
  || (c =? 160)                      (* NBSP *)
  || (c =? 5760)                     (* U+1680 *)
  || ((8192 <=? c) && (c <=? 8202))  (* U+2000 .. U+200A *)
  || (c =? 8232) || (c =? 8233)      (* LS, PS *)
  || (c =? 8239) || (c =? 8287)      (* U+202F, U+205F *)
  || (c =? 12288)                    (* U+3000 *)
  || (c =? 65279).                   (* U+FEFF *)

(** The same characters, listed. *)
Definition whitespace_chars : list N :=
  [9; 10; 11; 12; 13; 32; 160; 5760;
   8192; 8193; 8194; 8195; 8196; 8197; 8198; 8199; 8200; 8201; 8202;
   8232; 8233; 8239; 8287; 12288; 65279].

Fixpoint trimStart (s : jsstring) : jsstring :=
  match s with
  | [] => []
  | c :: r => if is_whitespace c then trimStart r else s
  end.

Definition trimEnd (s : jsstring) : jsstring :=
  reverse (trimStart (reverse s)).

(** [s.trim()] *)
Definition trim (s : jsstring) : jsstring := trimEnd (trimStart s).

(** [s.split(sep)] for a one-character separator; the result is never the
    empty array. *)
Fixpoint split (sep : N) (s : jsstring) : list jsstring :=
  match s with
  | [] => [[]]
  | c :: r =>
      if c =? sep then [] :: split sep r
      else match split sep r with
           | l :: ls => (c :: l) :: ls
           | [] => [[c]]
           end
  end.

(** The line feed of the source literal ['\n']. *)
Definition LF : N := 10.

(** [parts.join(sep)]: what [split] undoes. *)
Fixpoint join (sep : N) (parts : list jsstring) : jsstring :=
  match parts with
  | [] => []
  | l :: ls => match ls with [] => l | _ => l ++ sep :: join sep ls end
  end.

(** A string holding no character other than whitespace; [!s.trim()]. *)
Definition blank (s : jsstring) : bool := forallb is_whitespace s.

(** [!s] on a string: only the empty string is falsy. *)
Definition is_empty (s : jsstring) : bool :=
  match s with [] => true | _ => false end.

(** [n.toString()] for a non-negative integer. *)
Definition toString (n : N) : jsstring :=
  lit (NilZero.string_of_uint (N.to_uint n)).

(** A string that starts and ends with a character [trim] keeps. *)
Definition trimmed (m : jsstring) : Prop :=
  (exists c, head m = Some c /\ is_whitespace c = false) /\
  (exists d, last m = Some d /\ is_whitespace d = false).

End JsString.
Export JsString.

(** ** Numbers: the double of a literal and its text *)

Module JsNumber.

Local Open Scope Z_scope.

(** The decimal that a number literal writes: [coefficient * 10^exponent],
    the sign apart. *)
Record decimal : Type :=
  Decimal { negative : bool; coefficient : Z; exponent : Z }.

(** Reads decimal digits off the front of a string: their value on top of
    [acc], how many there were, and the rest. *)
Fixpoint read_digits (acc count : Z) (s : jsstring) : Z * Z * jsstring :=
  match s with
  | c :: r =>
      if ((48 <=? c) && (c <=? 57))%N
      then read_digits (10 * acc + (Z.of_N c - 48)) (count + 1) r
      else (acc, count, s)
  | [] => (acc, count, [])
  end.

Definition read_exponent (s : jsstring) : Z :=
  match s with
  | c :: r =>
      if ((c =? 101) || (c =? 69))%N then
        match r with
        | 45%N :: r' => - (read_digits 0 0 r').1.1
        | 43%N :: r' => (read_digits 0 0 r').1.1
        | _ => (read_digits 0 0 r).1.1
        end
      else 0
  | [] => 0
  end.

Definition decimal_of_literal (literal : jsstring) : decimal :=
  let '(neg, s1) :=
    match literal with
    | 45%N :: r => (true, r)
    | _ => (false, literal)
    end in
  let '(int, _, s2) := read_digits 0 0 s1 in
  let '(coef, scale, s3) :=
    match s2 with
    | 46%N :: r => read_digits int 0 r
    | _ => (int, 0, s2)
    end in
  Decimal neg coef (read_exponent s3 - scale).

(** The magnitude of a Number (an IEEE 754 double): zero,
    [mantissa * 2^exp] with [mantissa < 2^53] and [-1074 <= exp <= 971]
    (and [2^52 <= mantissa] unless [exp = -1074]), or infinity. *)
Inductive magnitude : Type :=
  | DZero
  | DFinite (mantissa exp : Z)
  | DInfinity.

(** [num / den] scaled by [2^(-e)], as a fraction. *)
Definition scale2 (num den e : Z) : Z * Z :=
  if 0 <=? e then (num, den * 2 ^ e) else (num * 2 ^ (- e), den).

(** Round to nearest, ties to even. *)
Definition round_half_even (num den : Z) : Z :=
  let q := num / den in
  let r := num mod den in
  if 2 * r <? den then q
  else if den <? 2 * r then q + 1
  else if Z.even q then q else q + 1.

(** The Number value for the positive rational [num / den]: the double
    nearest to it, the even one of two that are as near; a rational that
    rounds to [2^1024] or more is infinite. *)
Definition round_ratio (num den : Z) : magnitude :=
  let e0 := Z.log2 num - Z.log2 den - 52 in
  let '(n0, d0) := scale2 num den e0 in
  let e1 := if n0 <? 2 ^ 52 * d0 then e0 - 1 else e0 in
  let e := Z.max e1 (-1074) in
  let '(n, d) := scale2 num den e in
  let m := round_half_even n d in
  let '(m, e) := if m =? 2 ^ 53 then (2 ^ 52, e + 1) else (m, e) in
  if m =? 0 then DZero
  else if 971 <? e then DInfinity
  else DFinite m e.

Definition ratio_of_decimal (c e : Z) : Z * Z :=
  if 0 <=? e then (c * 10 ^ e, 1) else (c, 10 ^ (- e)).

Definition round_decimal (c e : Z) : magnitude :=
  if c =? 0 then DZero
  else let '(num, den) := ratio_of_decimal c e in round_ratio num den.

(** The magnitude of the Number that [JSON.parse] reads for a literal. *)
Definition Number_of_literal (literal : jsstring) : magnitude :=
  let d := decimal_of_literal literal in
  round_decimal (coefficient d) (exponent d).

Definition rounds_to (m e : Z) (x : magnitude) : bool :=
  match x with
  | DFinite m' e' => (m' =? m) && (e' =? e)
  | DZero | DInfinity => false
  end.

(** [10^j <= num / den] *)
Definition pow10_le (j num den : Z) : bool :=
  if 0 <=? j then 10 ^ j * den <=? num else den <=? num * 10 ^ (- j).

(** The [n] with [10^(n-1) <= num / den < 10^n], from an estimate that is
    off by one at most. *)
Fixpoint settle (fuel : nat) (num den n : Z) : Z :=
  match fuel with
  | O => n
  | S fuel =>
      if negb (pow10_le (n - 1) num den) then settle fuel num den (n - 1)
      else if pow10_le n num den then settle fuel num den (n + 1)
      else n
  end.

Definition decimal_point (num den : Z) : Z :=
  settle 4 num den ((Z.log2 num - Z.log2 den) * 30103 / 100000 + 1).

(** The [k]-digit integer [s] with [s * 10^(n-k)] closest to [m * 2^e]
    among those that the Number [m * 2^e] is the value for, if there is
    one. *)
Definition digits_of_length (m e n k : Z) : option Z :=
  let '(num, den) := scale2 m 1 (- e) in
  let '(num, den) :=
    if 0 <=? n - k then (num, den * 10 ^ (n - k))
    else (num * 10 ^ (k - n), den) in
  let lo := num / den in
  let r := num mod den in
  let ok s := rounds_to m e (round_decimal s (n - k)) in
  let hi := lo + 1 in
  match ok lo, ok hi with
  | true, true =>
      if 2 * r <? den then Some lo
      else if den <? 2 * r then Some hi
      else if Z.even lo then Some lo else Some hi
  | true, false => Some lo
  | false, true => Some hi
  | false, false => None
  end.

(** The shortest digit string that identifies the Number [m * 2^e]:
    [(s, k, n)] with [s] of [k] digits and [s * 10^(n-k)] read back as the
    same Number.  Seventeen digits identify any Number. *)
Definition shortest_digits (m e : Z) : Z * Z * Z :=
  let '(num, den) := scale2 m 1 (- e) in
  let n := decimal_point num den in
  let found :=
    head (omap (fun k => (fun s => (s, k)) <$> digits_of_length m e n k)
               (seqZ 1 17)) in
  match found with
  | Some (s, k) => if s =? 10 ^ k then (1, 1, n + 1) else (s, k, n)
  | None => (0, 1, n)
  end.

Definition zeros (n : Z) : jsstring := replicate (Z.to_nat n) 48%N.

Definition exponent_text (n : Z) : jsstring :=
  101%N :: (if 0 <=? n - 1 then 43%N else 45%N)
        :: toString (Z.to_N (Z.abs (n - 1))).

(** [Number::toString] for a positive Number, from its digits. *)
Definition Number_toString (m e : Z) : jsstring :=
  let '(s, k, n) := shortest_digits m e in
  let digits := toString (Z.to_N s) in
  if (k <=? n) && (n <=? 21) then digits ++ zeros (n - k)
  else if (0 <? n) && (n <=? 21)
  then take (Z.to_nat n) digits ++ 46%N :: drop (Z.to_nat n) digits
  else if (-6 <? n) && (n <=? 0) then 48%N :: 46%N :: zeros (- n) ++ digits
  else if k =? 1 then digits ++ exponent_text n
  else take 1 digits ++ 46%N :: drop 1 digits ++ exponent_text n.

(** The text that [JSON.stringify] writes for the Number that a literal
    denotes; [None] stands for [null], written for an infinite Number. *)
Definition stringify_number (literal : jsstring) : option jsstring :=
  match Number_of_literal literal with
  | DZero => Some [48%N]
  | DInfinity => None
  | DFinite m e =>
      Some ((if negative (decimal_of_literal literal) then [45%N] else [])
              ++ Number_toString m e)
  end.

End JsNumber.
Export JsNumber.

(** ** JSON values and [JSON.parse] *)

Module Json.

Local Open Scope N_scope.

(** A JSON value as its text writes it.  A number is its literal; the
    Number that the literal denotes is [Number_of_literal].  An object is
    its list of properties in the order of the text; the order in which
    JavaScript enumerates them is [OrdinaryOwnPropertyKeys]. *)
#[warnings="-register-all"]
Inductive json : Type :=
  | JNull
  | JBool (b : bool)
  | JNumber (literal : jsstring)
  | JString (s : jsstring)
  | JArray (items : list json)
  | JObject (props : list (jsstring * json)).

Inductive token : Type :=
  | TLBrace | TRBrace | TLBracket | TRBracket | TColon | TComma
  | TTrue | TFalse | TNull
  | TNumber (literal : jsstring)
  | TString (s : jsstring).

(** JSON whitespace: space, tab, line feed, carriage return. *)
Definition is_json_ws (c : N) : bool :=
  (c =? 32) || (c =? 9) || (c =? 10) || (c =? 13).

Definition is_digit (c : N) : bool := (48 <=? c) && (c <=? 57).

Definition is_letter (c : N) : bool := (97 <=? c) && (c <=? 122).

Definition is_exp_mark (c : N) : bool := (c =? 101) || (c =? 69).

Definition is_sign (c : N) : bool := (c =? 43) || (c =? 45).

(** The states of the number grammar: an optional minus, then [0] or a
    non-zero digit followed by digits, then an optional fraction (a dot and
    one digit or more), then an optional exponent ([e] or [E], an optional
    sign, one digit or more). *)
Inductive num_state : Type :=
  | NMinus | NZero | NInt | NDot | NFrac | NExp | NExpSign | NExpDigits.

Definition num_accepting (st : num_state) : bool :=
  match st with
  | NZero | NInt | NFrac | NExpDigits => true
  | NMinus | NDot | NExp | NExpSign => false
  end.

Definition num_next (st : num_state) (c : N) : option num_state :=
  match st with
  | NMinus =>
      if c =? 48 then Some NZero else if is_digit c then Some NInt else None
  | NZero =>
      if c =? 46 then Some NDot
      else if is_exp_mark c then Some NExp else None
  | NInt =>
      if is_digit c then Some NInt
      else if c =? 46 then Some NDot
      else if is_exp_mark c then Some NExp else None
  | NDot => if is_digit c then Some NFrac else None
  | NFrac =>
      if is_digit c then Some NFrac
      else if is_exp_mark c then Some NExp else None
  | NExp =>
      if is_digit c then Some NExpDigits
      else if is_sign c then Some NExpSign else None
  | NExpSign => if is_digit c then Some NExpDigits else None
  | NExpDigits => if is_digit c then Some NExpDigits else None
  end.

(** The character that a one-letter escape sequence stands for (the [u]
    escape with its four hexadecimal digits is separate). *)
Definition escape_char (c : N) : option N :=
  if c =? 34 then Some 34          (* quotation mark *)
  else if c =? 92 then Some 92     (* reverse solidus *)
  else if c =? 47 then Some 47     (* solidus *)
  else if c =? 98 then Some 8      (* b: backspace *)
  else if c =? 102 then Some 12    (* f: form feed *)
  else if c =? 110 then Some 10    (* n: line feed *)
  else if c =? 114 then Some 13    (* r: carriage return *)
  else if c =? 116 then Some 9     (* t: tab *)
  else None.

Definition hex_value (c : N) : option N :=
  if is_digit c then Some (c - 48)
  else if (97 <=? c) && (c <=? 102) then Some (c - 87)
  else if (65 <=? c) && (c <=? 70) then Some (c - 55)
  else None.

Definition word_token (w : jsstring) : option token :=
  if decide (w = lit "true"%string) then Some TTrue
  else if decide (w = lit "false"%string) then Some TFalse
  else if decide (w = lit "null"%string) then Some TNull
  else None.

(** What the lexer is in the middle of.  Accumulators are kept reversed. *)
Inductive lex_mode : Type :=
  | LStart
  | LWord (acc : jsstring)
  | LString (acc : jsstring)
  | LEscape (acc : jsstring)
  | LUnicode (acc : jsstring) (read : nat) (value : N)
  | LNumber (st : num_state) (acc : jsstring)
  | LFail.

(** The tokens read so far (reversed) and the current mode. *)
Record lexer : Type := Lexer { toks : list token; mode : lex_mode }.

Definition lex_fail : lexer := Lexer [] LFail.

(** A character met between two tokens. *)
Definition lex_start (ts : list token) (c : N) : lexer :=
  if is_json_ws c then Lexer ts LStart
  else if c =? 123 then Lexer (TLBrace :: ts) LStart
  else if c =? 125 then Lexer (TRBrace :: ts) LStart
  else if c =? 91 then Lexer (TLBracket :: ts) LStart
  else if c =? 93 then Lexer (TRBracket :: ts) LStart
  else if c =? 58 then Lexer (TColon :: ts) LStart
  else if c =? 44 then Lexer (TComma :: ts) LStart
  else if c =? 34 then Lexer ts (LString [])
  else if c =? 45 then Lexer ts (LNumber NMinus [c])
  else if c =? 48 then Lexer ts (LNumber NZero [c])
  else if is_digit c then Lexer ts (LNumber NInt [c])
  else if is_letter c then Lexer ts (LWord [c])
  else lex_fail.

Definition lex_step (l : lexer) (c : N) : lexer :=
  let ts := toks l in
  match mode l with
  | LStart => lex_start ts c
  | LWord acc =>
      if is_letter c then Lexer ts (LWord (c :: acc))
      else match word_token (reverse acc) with
           | Some t => lex_start (t :: ts) c
           | None => lex_fail
           end
  | LString acc =>
      if c =? 34 then Lexer (TString (reverse acc) :: ts) LStart
      else if c =? 92 then Lexer ts (LEscape acc)
      else if c <? 32 then lex_fail
      else Lexer ts (LString (c :: acc))
  | LEscape acc =>
      match escape_char c with
      | Some d => Lexer ts (LString (d :: acc))
      | None => if c =? 117 then Lexer ts (LUnicode acc 0 0) else lex_fail
      end
  | LUnicode acc read value =>
      match hex_value c with
      | Some h =>
          if decide (read = 3%nat)
          then Lexer ts (LString ((16 * value + h) :: acc))
          else Lexer ts (LUnicode acc (S read) (16 * value + h))
      | None => lex_fail
      end
  | LNumber st acc =>
      match num_next st c with
      | Some st' => Lexer ts (LNumber st' (c :: acc))
      | None =>
          if num_accepting st
          then lex_start (TNumber (reverse acc) :: ts) c
          else lex_fail
      end
  | LFail => lex_fail
  end.

(** End of input: a word or a number may be in progress, nothing else. *)
Definition lex_finish (l : lexer) : option (list token) :=
  match mode l with
  | LStart => Some (reverse (toks l))
  | LWord acc =>
      match word_token (reverse acc) with
      | Some t => Some (reverse (t :: toks l))
      | None => None
      end
  | LNumber st acc =>
      if num_accepting st
      then Some (reverse (TNumber (reverse acc) :: toks l))
      else None
  | LString _ | LEscape _ | LUnicode _ _ _ | LFail => None
  end.

Definition lex_run (l : lexer) (s : jsstring) : lexer :=
  fold_left lex_step s l.

Definition tokenize (s : jsstring) : option (list token) :=
  lex_finish (lex_run (Lexer [] LStart) s).

(** [CreateDataProperty]: a repeated key keeps its place and takes the new
    value. *)
Fixpoint obj_set (k : jsstring) (v : json) (o : list (jsstring * json))
  : list (jsstring * json) :=
  match o with
  | [] => [(k, v)]
  | (k', v') :: o' =>
      if decide (k' = k) then (k, v) :: o' else (k', v') :: obj_set k v o'
  end.

Fixpoint obj_get (k : jsstring) (o : list (jsstring * json)) : option json :=
  match o with
  | [] => None
  | (k', v) :: o' => if decide (k' = k) then Some v else obj_get k o'
  end.

(** Recursive descent over the tokens; every call spends one unit of fuel. *)
Fixpoint parse_value (fuel : nat) (ts : list token)
  : option (json * list token) :=
  match fuel with
  | O => None
  | S fuel =>
      match ts with
      | TNull :: r => Some (JNull, r)
      | TTrue :: r => Some (JBool true, r)
      | TFalse :: r => Some (JBool false, r)
      | TNumber n :: r => Some (JNumber n, r)
      | TString s :: r => Some (JString s, r)
      | TLBracket :: TRBracket :: r => Some (JArray [], r)
      | TLBracket :: r =>
          match parse_elements fuel r with
          | Some (vs, r') => Some (JArray vs, r')
          | None => None
          end
      | TLBrace :: TRBrace :: r => Some (JObject [], r)
      | TLBrace :: r =>
          match parse_members fuel [] r with
          | Some (ps, r') => Some (JObject ps, r')
          | None => None
          end
      | _ => None
      end
  end
with parse_elements (fuel : nat) (ts : list token)
  : option (list json * list token) :=
  match fuel with
  | O => None
  | S fuel =>
      match parse_value fuel ts with
      | Some (v, TComma :: r) =>
          match parse_elements fuel r with
          | Some (vs, r') => Some (v :: vs, r')
          | None => None
          end
      | Some (v, TRBracket :: r) => Some ([v], r)
      | _ => None
      end
  end
with parse_members (fuel : nat) (o : list (jsstring * json)) (ts : list token)
  : option (list (jsstring * json) * list token) :=
  match fuel with
  | O => None
  | S fuel =>
      match ts with
      | TString k :: TColon :: r =>
          match parse_value fuel r with
          | Some (v, TComma :: r') => parse_members fuel (obj_set k v o) r'
          | Some (v, TRBrace :: r') => Some (obj_set k v o, r')
          | _ => None
          end
      | _ => None
      end
  end.

(** [JSON.parse(s)]; [None] stands for the [SyntaxError] it throws.  Two
    calls per token at most are nested, so the fuel never runs out on a
    well-formed text. *)
Definition JSON_parse (s : jsstring) : option json :=
  match tokenize s with
  | Some ts =>
      match parse_value (2 * length ts + 2) ts with
      | Some (v, []) => Some v
      | _ => None
      end
  | None => None
  end.

(** A JavaScript value read out of parsed JSON: [None] is [undefined]. *)
Abbreviation value := (option json).

(** [!v]: a number is falsy when its double is zero, as the double of
    [0.0] and of [1e-400] is. *)
Definition falsy (v : value) : bool :=
  match v with
  | None => true
  | Some JNull => true
  | Some (JBool b) => negb b
  | Some (JNumber n) =>
      match Number_of_literal n with
      | DZero => true
      | DFinite _ _ | DInfinity => false
      end
  | Some (JString s) => is_empty s
  | Some (JArray _) | Some (JObject _) => false
  end.

(** [typeof v === 'string'] *)
Definition typeof_string (v : value) : bool :=
  match v with
  | Some (JString _) => true
  | _ => false
  end.

(** [v === 'literal'] *)
Definition strict_eq_string (v : value) (s : jsstring) : bool :=
  match v with
  | Some (JString s') => bool_decide (s' = s)
  | _ => false
  end.

(** [v.name] as a destructuring pattern reads it, for a [name] that no
    built-in prototype defines (such as [text] and [voice]): [None] is the
    [TypeError] raised on [null]; booleans, numbers, strings and arrays
    answer [undefined]. *)
Definition get_property (v : json) (name : jsstring) : option value :=
  match v with
  | JNull => None
  | JObject o => Some (obj_get name o)
  | JBool _ | JNumber _ | JString _ | JArray _ => Some None
  end.

(** A property key that is an array index: the canonical decimal of an
    integer below [2^32 - 1]. *)
Definition array_index (k : jsstring) : option Z :=
  match k with
  | [] => None
  | c :: r =>
      if forallb is_digit k && (negb (c =? 48) || is_empty r)
      then let i := (read_digits 0 0 k).1.1 in
           if (i <? 2 ^ 32 - 1)%Z then Some i else None
      else None
  end.

Fixpoint insert_by_index (i : Z) (p : jsstring * json)
    (l : list (Z * (jsstring * json))) : list (Z * (jsstring * json)) :=
  match l with
  | [] => [(i, p)]
  | (j, q) :: l' =>
      if (i <? j)%Z then (i, p) :: l else (j, q) :: insert_by_index i p l'
  end.

(** The order in which the properties of an object are enumerated: array
    indices in ascending order, then the other keys as they were created. *)
Definition OrdinaryOwnPropertyKeys (props : list (jsstring * json))
  : list (jsstring * json) :=
  (foldr (fun p acc =>
            match array_index p.1 with
            | Some i => insert_by_index i p acc
            | None => acc
            end) [] props).*2
  ++ filter (fun p => array_index p.1 = None) props.

(** The value that the text [JSON.stringify(v)] writes, for the JavaScript
    value [v] that [JSON.parse] built: a number is written from its double
    ([null] for an infinite one), the properties of an object in the order
    of their enumeration. *)
Fixpoint stringified (v : json) : json :=
  match v with
  | JNull => JNull
  | JBool b => JBool b
  | JNumber literal =>
      match stringify_number literal with
      | Some text => JNumber text
      | None => JNull
      end
  | JString s => JString s
  | JArray items => JArray (stringified <$> items)
  | JObject props =>
      JObject (OrdinaryOwnPropertyKeys
                 ((fun p => (p.1, stringified p.2)) <$> props))
  end.


End Json.
Export Json.

(** ** The route handler [POST /api/tts] *)

Module TtsRoute.


(** A response: its status and the JSON value that its body text writes. *)
Record response : Type := Response { status : Z; body : json }.

(** What [NextResponse.json(data, { status })] builds: the body text is
    [JSON.stringify(data)], the status 200 unless given. *)
Definition NextResponse_json (data : json) (init : option Z) : response :=
  Response (default 200%Z init) (stringified data).

(** The object literal [{ error: msg }]. *)
Definition error_body (msg : string) : json :=
  JObject [(lit "error", JString (lit msg))].

(** One [console.error(label, payload)] call. *)
Record log_entry : Type := Log { label : string; payload : jsstring }.

(** [voice === 'default' ? '' : voice || ''] *)
Definition voicePath (voice : value) : json :=
  if strict_eq_string voice (lit "default") then JString []
  else match voice with
       | Some v => if falsy voice then JString [] else v
       | None => JString []
       end.

(** [ToString(v)] throws a [TypeError] on an object whose [toString] is not
    a function, as a property of that name read from JSON is, and on an array
    that holds such an object ([Array.prototype.join] converts the items). *)
Fixpoint ToString_throws (v : json) : bool :=
  match v with
  | JArray items => existsb ToString_throws items
  | JObject props => bool_decide (is_Some (obj_get (lit "toString") props))
  | JNull | JBool _ | JNumber _ | JString _ => false
  end.

(** An argument on which [spawn] throws: a string that holds U+0000, which
    its argument check refuses, or a value that cannot be converted to the
    string of the argument. *)
Definition spawn_refuses (arg : value) : bool :=
  match arg with
  | Some (JString s) => bool_decide (0%N ∈ s)
  | Some v => ToString_throws v
  | None => false
  end.

(** How the body of the async function ends: it returns a response; or it
    returns the promise after launching [venv/bin/python3 tts_service.py]
    with [text] and [voicePath] as the two last arguments (the executable,
    the script and the working directory all hang off [process.cwd()]); or
    the call of [spawn] throws inside the executor of the promise, which is
    returned rejected, without a listener and without a response of the
    handler (the [catch] of line 67 does not see it: the promise is not
    awaited). *)
Inductive outcome : Type :=
  | Returned (r : response) (console : list log_entry)
  | Launched (text : value) (voice_path : json)
  | SpawnThrew.

(** Lines 5-27 and 67-70: [request.json()] is [JSON.parse] of the body text;
    it and the destructuring of [null] throw into the outer [catch]; [spawn]
    is called inside the executor of the promise that the handler returns. *)
Definition POST (request_body : jsstring) : outcome :=
  let internal_error :=
    Returned (NextResponse_json (error_body "Internal server error")
                                (Some 500%Z))
             [Log "TTS API error:" []] in
  match JSON_parse request_body with
  | None => internal_error
  | Some parsed =>
      match get_property parsed (lit "text"),
            get_property parsed (lit "voice") with
      | Some text, Some voice =>
          if falsy text || negb (typeof_string text)
          then Returned (NextResponse_json (error_body "Text is required")
                                           (Some 400%Z)) []
          else if spawn_refuses text || spawn_refuses (Some (voicePath voice))
          then SpawnThrew
          else Launched text (voicePath voice)
      | _, _ => internal_error
      end
  end.

(** The variables the listeners close over, the promise ([settled] holds the
    response it resolved with) and the console. *)
Record child : Type := Child {
  stdout : jsstring;
  stderr : jsstring;
  settled : option response;
  console : list log_entry
}.

Definition spawned : child := Child [] [] None [].

(** [resolve(r)]: a promise keeps the first value it was resolved with. *)
Definition resolve (r : response) (c : child) : child :=
  match settled c with
  | Some _ => c
  | None => Child (stdout c) (stderr c) (Some r) (console c)
  end.

Definition console_error (l : string) (p : jsstring) (c : child) : child :=
  Child (stdout c) (stderr c) (settled c) (console c ++ [Log l p]).

(** Lines 47-58, the body of the [try] and its [catch]: [None] out of the
    array or out of [JSON.parse] is the exception. *)
Definition parse_last_line (out : jsstring) : option json :=
  let lines := split LF (trim out) in
  match lines !! (length lines - 1)%nat with
  | Some line =>
      let lastLine := trim line in
      JSON_parse lastLine
  | None => None
  end.

(** Lines 40-59: the [close] listener; [code] is [None] for the [null] of a
    child killed by a signal. *)
Definition on_close (code : option Z) (c : child) : child :=
  if negb (bool_decide (code = Some 0%Z)) then
    resolve (NextResponse_json (error_body "TTS generation failed")
                               (Some 500%Z))
            (console_error "Python process error:" (stderr c) c)
  else
    match parse_last_line (stdout c) with
    | Some result => resolve (NextResponse_json result None) c
    | None =>
        resolve (NextResponse_json
                   (error_body "Invalid response from TTS service")
                   (Some 500%Z))
                (console_error "Failed to parse TTS response:" (stdout c) c)
    end.

(** Lines 61-64: the [error] listener. *)
Definition on_error (c : child) : child :=
  resolve (NextResponse_json (error_body "Failed to start TTS service")
                             (Some 500%Z))
          (console_error "Failed to start Python process:" [] c).

(** A code point in UTF-16. *)
Definition utf16 (cp : N) : jsstring :=
  if (cp <? 0x10000)%N then [cp]
  else [(0xD800 + (cp - 0x10000) / 0x400)%N;
        (0xDC00 + (cp - 0x10000) mod 0x400)%N].

(** A UTF-8 sequence in progress: the bytes still [needed], the bits read
    so far and the range of the next byte. *)
Record utf8_pending : Type :=
  Utf8Pending { needed : nat; code_point : N; lower : N; upper : N }.

(** A byte met between two sequences. *)
Definition utf8_lead (b : N) : jsstring * option utf8_pending :=
  if (b <=? 0x7F)%N then ([b], None)
  else if ((0xC2 <=? b) && (b <=? 0xDF))%N
  then ([], Some (Utf8Pending 1 (N.land b 0x1F) 0x80 0xBF))
  else if ((0xE0 <=? b) && (b <=? 0xEF))%N
  then ([], Some (Utf8Pending 2 (N.land b 0xF)
                    (if (b =? 0xE0)%N then 0xA0%N else 0x80%N)
                    (if (b =? 0xED)%N then 0x9F%N else 0xBF%N)))
  else if ((0xF0 <=? b) && (b <=? 0xF4))%N
  then ([], Some (Utf8Pending 3 (N.land b 0x7)
                    (if (b =? 0xF0)%N then 0x90%N else 0x80%N)
                    (if (b =? 0xF4)%N then 0x8F%N else 0xBF%N)))
  else ([0xFFFD%N], None).

(** The UTF-8 decoder: a sequence that a byte breaks off or that the end of
    the bytes cuts short is replaced by U+FFFD, and the byte that broke it
    off is read again. *)
Fixpoint utf8_decode (pending : option utf8_pending) (bytes : list N)
  : jsstring :=
  match bytes with
  | [] => match pending with Some _ => [0xFFFD%N] | None => [] end
  | b :: r =>
      match pending with
      | None => let '(out, p) := utf8_lead b in out ++ utf8_decode p r
      | Some (Utf8Pending n cp lo hi) =>
          if ((lo <=? b) && (b <=? hi))%N then
            let cp' := N.lor (N.shiftl cp 6) (N.land b 0x3F) in
            match n with
            | S (S _ as n') =>
                utf8_decode (Some (Utf8Pending n' cp' 0x80 0xBF)) r
            | _ => utf16 cp' ++ utf8_decode None r
            end
          else
            let '(out, p) := utf8_lead b in
            0xFFFD%N :: out ++ utf8_decode p r
      end
  end.

(** [data.toString()] on the Buffer of a chunk; a byte is a number below
    256. *)
Definition Buffer_toString (data : list N) : jsstring := utf8_decode None data.

(** What the child process does, as the listeners see it; a chunk is the
    text that [data.toString()] gives for it. *)
Inductive child_event : Type :=
  | StdoutData (chunk : jsstring)
  | StderrData (chunk : jsstring)
  | Close (code : option Z)
  | Error.

(** Lines 32-38, 40 and 61: the four listeners. *)
Definition listen (c : child) (e : child_event) : child :=
  match e with
  | StdoutData d => Child (stdout c ++ d) (stderr c) (settled c) (console c)
  | StderrData d => Child (stdout c) (stderr c ++ d) (settled c) (console c)
  | Close code => on_close code c
  | Error => on_error c
  end.

Definition run (events : list child_event) : child :=
  fold_left listen events spawned.

Definition is_data (e : child_event) : bool :=
  match e with
  | StdoutData _ | StderrData _ => true
  | Close _ | Error => false
  end.

(** The [data] events of the standard output for the Buffers that the
    stream hands over, one event for each. *)
Definition stdout_data (chunks : list (list N)) : list child_event :=
  (fun data => StdoutData (Buffer_toString data)) <$> chunks.

(** The text on the standard output as the handler accumulates it: its
    chunks, each decoded on its own, one after the other. *)
Fixpoint written (events : list child_event) : jsstring :=
  match events with
  | [] => []
  | StdoutData d :: es => d ++ written es
  | _ :: es => written es
  end.

(** A run of the child that starts, writes and exits with [code]: the events
    of its output, then [close]. *)
Definition exits_with (code : option Z) (output : list child_event)
  : list child_event :=
  output ++ [Close code].

(** The response of the endpoint to a request whose child runs to its exit. *)
Definition respond (events : list child_event) : option response :=
  settled (run events).

(** Following the words of the specification: the last line of the standard
    output that is not empty, a line counting as empty when it holds nothing
    but whitespace. *)
Definition final_nonempty_line (out : jsstring) : option jsstring :=
  last (filter (fun l => blank l = false) (split LF out)).

(** The same words read to the letter: the last line that holds a character
    at all. *)
Definition final_nonempty_line_literal (out : jsstring) : option jsstring :=
  last (filter (fun l => l <> []) (split LF out)).

(** Following the words of the specification: a [text] field that is
    missing, an empty string, or not a string. *)
Definition text_missing_or_invalid (parsed : json) : Prop :=
  match parsed with
  | JObject o =>
      match obj_get (lit "text") o with
      | None => True
      | Some (JString s) => s = []
      | Some _ => True
      end
  | _ => True
  end.

End TtsRoute.

(** ** Sample inputs of the route *)

Module TtsSamples.

Import TtsRoute.

(** A string literal of a JSON text: the word between quotation marks. *)
Definition quoted (s : string) : jsstring := 34%N :: lit s ++ [34%N].

(** The line of an object with [success: true] and [audio: QUJD]. *)
Definition result_line : jsstring :=
  lit "{" ++ quoted "success" ++ lit ": true, " ++ quoted "audio" ++ lit ": "
    ++ quoted "QUJD" ++ lit "}".

Definition result_json : json :=
  JObject [(lit "success", JBool true); (lit "audio", JString (lit "QUJD"))].

(** A child that logs on both streams before its result line. *)
Definition chatty_run : list child_event :=
  [StdoutData (lit "Loading voice model" ++ [LF]);
   StderrData (lit "warning: no GPU" ++ [LF]);
   StdoutData (lit "Synthesising" ++ [LF] ++ lit "{" ++ quoted "success");
   StdoutData (lit ": true, " ++ quoted "audio" ++ lit ": " ++ quoted "QUJD"
                 ++ lit "}" ++ [LF])].

(** A child whose last line is a Python traceback line, not JSON. *)
Definition traceback_run : list child_event :=
  [StdoutData (lit "Loading voice model" ++ [LF]);
   StdoutData (lit "  ValueError: empty text  " ++ [LF])].

(** A child that writes a byte order mark (U+FEFF) before its result
    [[1]]: whitespace for [trim], not for JSON. *)
Definition bom_line : jsstring := 65279%N :: lit "[1]".

Definition bom_run : list child_event := [StdoutData bom_line].

(** A child whose result holds a number beyond the range of a double. *)
Definition overflow_line : jsstring := lit "{" ++ quoted "n" ++ lit ": 1e400}".

Definition overflow_run : list child_event :=
  [StdoutData (lit "Synthesising" ++ [LF]); StdoutData overflow_line].



(** A child whose result has keys that are array indices, and a number that
    is not written the way [JSON.stringify] writes it. *)
Definition ordered_line : jsstring :=
  lit "{" ++ quoted "b" ++ lit ": 0.10, " ++ quoted "2" ++ lit ": true, "
    ++ quoted "1" ++ lit ": null}".

(** A child that ends its output with a line of two spaces. *)
Definition trailing_spaces_run : list child_event :=
  [StdoutData (result_line ++ [LF] ++ lit "  " ++ [LF])].

(** A child that writes nothing but spaces and line ends. *)
Definition silent_run : list child_event :=
  [StdoutData (lit "  " ++ [LF]); StderrData (lit "oops"); StdoutData [LF]].

(** The request body of an object with [voice: default] and no [text]. *)
Definition body_without_text : jsstring :=
  lit "{" ++ quoted "voice" ++ lit ": " ++ quoted "default" ++ lit "}".

(** The request body of an object with [text: Hello], [voice: default]. *)
Definition body_with_text : jsstring :=
  lit "{" ++ quoted "text" ++ lit ": " ++ quoted "Hello" ++ lit ", "
    ++ quoted "voice" ++ lit ": " ++ quoted "default" ++ lit "}".

(** The request body [null]. *)
Definition body_null : jsstring := lit "null".

(** A request body cut short in the middle of the string of [text]. *)
Definition body_truncated : jsstring :=
  lit "{" ++ quoted "text" ++ lit ": " ++ [34%N] ++ lit "Hel".

End TtsSamples.

(** ** The chat controller of [Chatbot.tsx] *)

Module Chatbot.


Inductive role : Type := user | assistant.

Record Message : Type := MkMessage {
  id : jsstring;
  role_of : role;
  content : jsstring
}.

(** The messages of the assistant in a conversation. *)
Definition of_assistant (ms : list Message) : list Message :=
  List.filter (fun m => match role_of m with
                        | assistant => true
                        | user => false
                        end) ms.

(** The [useState] values of one render (the model and voice catalogues,
    which only feed the two selects, are left out).  A function declared in
    the component body closes over the values of the render that created
    it. *)
Record state : Type := State {
  selectedModel : jsstring;
  messages : list Message;
  input : jsstring;
  loading : bool;
  selectedVoice : jsstring;
  playingAudio : option jsstring;
  generatingAudio : option jsstring;
  autoPlay : bool;
  responseLength : list Z
}.

(** An [HTMLAudioElement]: the bytes behind its object URL, whether it is
    paused, and its playback position. *)
Record audio : Type := Audio {
  src : list N;
  paused : bool;
  currentTime : N
}.

(** What outlives a render: the current React state, [audioRefs.current]
    (message id to audio element, elements being named by their creation
    index), the audio elements themselves, and what [alert] and
    [console.error] were given. *)
Record world : Type := World {
  st : state;
  audioRefs : gmap jsstring nat;
  audios : list audio;
  alerts : list jsstring;
  errors : list string
}.

Definition initial_state : state :=
  State [] [] [] false [] None None false [5%Z].

Definition initial_world : world :=
  World initial_state ∅ [] [] [].

Definition with_state (f : state -> state) (w : world) : world :=
  World (f (st w)) (audioRefs w) (audios w) (alerts w) (errors w).

Definition setSelectedModel (v : jsstring) : world -> world :=
  with_state (fun s =>
    State v (messages s) (input s) (loading s) (selectedVoice s)
          (playingAudio s) (generatingAudio s) (autoPlay s)
          (responseLength s)).

(** [setMessages(prev => f(prev))] *)
Definition setMessages (f : list Message -> list Message) : world -> world :=
  with_state (fun s =>
    State (selectedModel s) (f (messages s)) (input s) (loading s)
          (selectedVoice s) (playingAudio s) (generatingAudio s)
          (autoPlay s) (responseLength s)).

Definition setInput (v : jsstring) : world -> world :=
  with_state (fun s =>
    State (selectedModel s) (messages s) v (loading s) (selectedVoice s)
          (playingAudio s) (generatingAudio s) (autoPlay s)
          (responseLength s)).

Definition setLoading (v : bool) : world -> world :=
  with_state (fun s =>
    State (selectedModel s) (messages s) (input s) v (selectedVoice s)
          (playingAudio s) (generatingAudio s) (autoPlay s)
          (responseLength s)).

Definition setSelectedVoice (v : jsstring) : world -> world :=
  with_state (fun s =>
    State (selectedModel s) (messages s) (input s) (loading s) v
          (playingAudio s) (generatingAudio s) (autoPlay s)
          (responseLength s)).

Definition setPlayingAudio (v : option jsstring) : world -> world :=
  with_state (fun s =>
    State (selectedModel s) (messages s) (input s) (loading s)
          (selectedVoice s) v (generatingAudio s) (autoPlay s)
          (responseLength s)).

Definition setGeneratingAudio (v : option jsstring) : world -> world :=
  with_state (fun s =>
    State (selectedModel s) (messages s) (input s) (loading s)
          (selectedVoice s) (playingAudio s) v (autoPlay s)
          (responseLength s)).

Definition setAutoPlay (v : bool) : world -> world :=
  with_state (fun s =>
    State (selectedModel s) (messages s) (input s) (loading s)
          (selectedVoice s) (playingAudio s) (generatingAudio s) v
          (responseLength s)).

Definition setResponseLength (v : list Z) : world -> world :=
  with_state (fun s =>
    State (selectedModel s) (messages s) (input s) (loading s)
          (selectedVoice s) (playingAudio s) (generatingAudio s)
          (autoPlay s) v).

Definition console_error (l : string) (w : world) : world :=
  World (st w) (audioRefs w) (audios w) (alerts w) (errors w ++ [l]).

Definition alert (msg : jsstring) (w : world) : world :=
  World (st w) (audioRefs w) (audios w) (alerts w ++ [msg]) (errors w).

(** A method call or an assignment on the audio element [h]. *)
Definition on_audio (h : nat) (f : audio -> audio) (w : world) : world :=
  World (st w) (audioRefs w) (alter f h (audios w)) (alerts w) (errors w).

(** [audio.pause()] *)
Definition pause (a : audio) : audio := Audio (src a) true (currentTime a).

(** [audio.currentTime = 0] *)
Definition rewind (a : audio) : audio := Audio (src a) (paused a) 0.

(** [audio.play()] when the browser lets it start. *)
Definition play (a : audio) : audio := Audio (src a) false (currentTime a).

(** [new Audio(url)] followed by [audioRefs.current[messageId] = audio]. *)
Definition register_audio (messageId : jsstring) (bytes : list N) (w : world)
  : world :=
  World (st w) (<[messageId := length (audios w)]> (audioRefs w))
        (audios w ++ [Audio bytes true 0]) (alerts w) (errors w).

(** Lines 164-171. *)
Definition stopTTS (messageId : jsstring) (w : world) : world :=
  match audioRefs w !! messageId with
  | Some h =>
      setPlayingAudio None (on_audio h rewind (on_audio h pause w))
  | None => w
  end.

(** *** [atob]: forgiving base64 decoding (WHATWG Infra) *)

Definition is_ascii_whitespace (c : N) : bool :=
  ((c =? 9) || (c =? 10) || (c =? 12) || (c =? 13) || (c =? 32))%N.

Definition base64_value (c : N) : option N :=
  (if (65 <=? c) && (c <=? 90) then Some (c - 65)
   else if (97 <=? c) && (c <=? 122) then Some (c - 71)
   else if (48 <=? c) && (c <=? 57) then Some (c + 4)
   else if c =? 43 then Some 62
   else if c =? 47 then Some 63
   else None)%N.

Definition drop_final_equals (s : jsstring) : jsstring :=
  match reverse s with
  | c :: r => if (c =? 61)%N then reverse r else s
  | [] => s
  end.

Fixpoint decode_sextets (v : list N) : list N :=
  match v with
  | a :: b :: c :: d :: r =>
      let n := (((a * 64 + b) * 64 + c) * 64 + d)%N in
      (n / 65536)%N :: ((n / 256) mod 256)%N :: (n mod 256)%N
        :: decode_sextets r
  | [a; b; c] =>
      let n := ((a * 64 + b) * 64 + c)%N in
      [(n / 1024)%N; ((n / 4) mod 256)%N]
  | [a; b] => [((a * 64 + b) / 16)%N]
  | _ => []
  end.

(** [atob(data)]; [None] stands for the [InvalidCharacterError]. *)
Definition atob (data : jsstring) : option (list N) :=
  let d := List.filter (fun c => negb (is_ascii_whitespace c)) data in
  let d :=
    if decide (length d mod 4 = 0)%nat
    then drop_final_equals (drop_final_equals d) else d in
  if decide (length d mod 4 = 1)%nat then None
  else decode_sextets <$> mapM base64_value d.

(** *** [generateTTS] *)

(** The JSON body sent to [/api/tts]; [voice] is [None] for [undefined]. *)
Record tts_request : Type := TtsRequest {
  tts_text : jsstring;
  tts_voice : option jsstring
}.

(** The JSON body read back from [/api/tts], in the shape the route relays:
    [{ success, audio?, error? }] (a missing [success] reads as [false]). *)
Record tts_data : Type := TtsData {
  success : bool;
  data_audio : option jsstring;
  data_error : option jsstring
}.

(** What the browser does with the recovery attempt of lines 141-150. *)
Inductive recovery : Type :=
  | ContextUnavailable    (* the AudioContext constructor throws *)
  | ContextNotSuspended   (* context.state is not 'suspended' *)
  | ResumeRejected        (* context.resume() rejects *)
  | RetryRejected         (* the second audio.play() rejects *)
  | RetryPlays.           (* the second audio.play() starts playback *)

(** What the browser does with [audio.play()] on line 133. *)
Inductive play_outcome : Type :=
  | Plays
  | Rejects (r : recovery).

(** [v || fallback] and truthiness for an optional string. *)
Definition truthy (v : option jsstring) : bool :=
  match v with
  | Some s => negb (is_empty s)
  | None => false
  end.

(** Lines 81-95: up to the first [await].  [env] holds the values of the
    render whose [generateTTS] is running. *)
Definition generateTTS_start (env : state) (text messageId : jsstring)
  (w : world) : world * option tts_request :=
  if is_empty (trim text) then (w, None)
  else
    (setGeneratingAudio (Some messageId) w,
     Some (TtsRequest text
             (if is_empty (selectedVoice env) then None
              else Some (selectedVoice env)))).

(** Lines 131-151. *)
Definition start_playback (h : nat) (outcome : play_outcome) (w : world)
  : world :=
  match outcome with
  | Plays => on_audio h play w
  | Rejects r =>
      let w := setPlayingAudio None (console_error "Failed to play audio:" w) in
      match r with
      | RetryPlays => on_audio h play w
      | ContextNotSuspended => w
      | ContextUnavailable | ResumeRejected | RetryRejected =>
          console_error "Failed to resume audio context:" w
      end
  end.

(** Lines 97-161: from the parsed body of the response to the end of the
    call.  [playingAudio] is read from [env], the render that created this
    [generateTTS], while [stopTTS], [audioRefs] and the setters act on the
    live component. *)
Definition generateTTS_resolved (env : state) (messageId : jsstring)
  (data : tts_data) (outcome : play_outcome) (w : world) : world :=
  let w :=
    if success data && truthy (data_audio data) then
      match atob (default [] (data_audio data)) with
      | Some audioData =>
          let h := length (audios w) in
          let w := register_audio messageId audioData w in
          let w :=
            match playingAudio env with
            | Some playing =>
                if negb (is_empty playing)
                   && negb (bool_decide (playing = messageId))
                then stopTTS playing w else w
            | None => w
            end in
          let w := setPlayingAudio (Some messageId) w in
          start_playback h outcome w
      | None => console_error "Failed to generate TTS:" w
      end
    else
      alert (lit "Text-to-speech failed: "
               ++ (if truthy (data_error data)
                   then default [] (data_error data)
                   else lit "Unknown error"))
            (console_error "TTS generation failed:" w) in
  setGeneratingAudio None w.

(** Lines 157-161 when [fetch] or [response.json()] rejects. *)
Definition generateTTS_rejected (w : world) : world :=
  setGeneratingAudio None (console_error "Failed to generate TTS:" w).

(** Lines 115-122: the [onended] and [onerror] handlers of an element. *)
Definition audio_onended (w : world) : world := setPlayingAudio None w.

Definition audio_onerror (w : world) : world :=
  setPlayingAudio None (console_error "Audio playback error:" w).

(** *** [sendMessage] *)

(** The JSON body sent to [http://localhost:11434/api/generate]. *)
Record generate_request : Type := GenerateRequest {
  model : jsstring;
  prompt : jsstring;
  stream : bool
}.

Definition short_instruction : jsstring :=
  lit "Please provide a short, concise response (1-2 sentences). ".

Definition medium_instruction : jsstring :=
  lit "Please provide a medium-length response (3-5 sentences). ".

Definition long_instruction : jsstring :=
  lit "Please provide a detailed, comprehensive response (6+ sentences). ".

(** Lines 187-195; [None] is the [undefined] of an empty slider array, for
    which both comparisons are false. *)
Definition lengthInstruction (lengthValue : option Z) : jsstring :=
  match lengthValue with
  | Some v =>
      if (v <=? 3)%Z then short_instruction
      else if (v <=? 7)%Z then medium_instruction
      else long_instruction
  | None => long_instruction
  end.

(** Line 197. *)
Definition enhancedPrompt (env : state) : jsstring :=
  lengthInstruction (head (responseLength env)) ++ input env.

(** Lines 174-211: up to the first [await]; [now] is [Date.now()]. *)
Definition sendMessage_start (env : state) (now : N) (w : world)
  : world * option generate_request :=
  if is_empty (trim (input env)) || is_empty (selectedModel env)
  then (w, None)
  else
    let userMessage := MkMessage (toString now) user (input env) in
    let w := setMessages (fun prev => prev ++ [userMessage]) w in
    let w := setInput [] w in
    let w := setLoading true w in
    (w, Some (GenerateRequest (selectedModel env) (enhancedPrompt env) false)).

(** A timer set by line 224: [generateTTS(text, messageId)] of the render
    [env], due in 100 ms. *)
Record timer : Type := Timer {
  timer_env : state;
  timer_text : jsstring;
  timer_id : jsstring
}.

(** Lines 212-227 and 236-238: the body of the response is
    [{ response }]; [now] is [Date.now()]. *)
Definition sendMessage_resolved (env : state) (now : N) (response : jsstring)
  (w : world) : world * option timer :=
  let assistantMessage := MkMessage (toString (now + 1)) assistant response in
  let w := setMessages (fun prev => prev ++ [assistantMessage]) w in
  (setLoading false w,
   if autoPlay env then Some (Timer env response (id assistantMessage))
   else None).

Definition ollama_error : jsstring :=
  lit "Error: Failed to get response from Ollama. Make sure Ollama is running.".

(** Lines 228-238 when [fetch] or [response.json()] rejects. *)
Definition sendMessage_rejected (now : N) (w : world) : world :=
  let w := console_error "Failed to send message:" w in
  let errorMessage := MkMessage (toString (now + 1)) assistant ollama_error in
  let w := setMessages (fun prev => prev ++ [errorMessage]) w in
  setLoading false w.

(** *** The page: the component and what it is waiting for *)

(** A call suspended at an [await], or a pending timer, with the render it
    belongs to. *)
Inductive task : Type :=
  | AwaitGenerate (env : state) (request : generate_request)
  | AwaitTts (env : state) (messageId : jsstring) (request : tts_request)
  | AwaitTimer (t : timer).

Record page : Type := Page { live : world; tasks : list task }.

Definition initial_page : page := Page initial_world [].

(** What happens to the page: the user acts on a control, a request settles,
    a timer fires, an audio element plays on, reaches its end or fails. *)
Inductive event : Type :=
  | SelectModel (name : jsstring)
  | SelectVoice (path : jsstring)
  | MoveSlider (value : list Z)
  | ToggleAutoPlay
  | TypeInput (text : jsstring)
  | Send (now : N)
  | ClickSpeaker (index : nat)
  | GenerateResolves (k : nat) (now : N) (response : jsstring)
  | GenerateRejects (k : nat) (now : N)
  | TimerFires (k : nat)
  | TtsResolves (k : nat) (data : tts_data) (outcome : play_outcome)
  | TtsRejects (k : nat)
  | PlaybackAdvances (h : nat) (dt : N)
  | PlaybackEnds (h : nat)
  | PlaybackFails (h : nat).

Definition add_task {A} (mk : A -> task) (r : world * option A)
  (rest : list task) : page :=
  match r.2 with
  | Some a => Page r.1 (rest ++ [mk a])
  | None => Page r.1 rest
  end.

(** One event.  A handler bound to a control runs in the latest render
    ([st (live p)]); a continuation runs in the render kept by its task.
    [None]: the event cannot happen (disabled control, no such task). *)
Definition step (p : page) (e : event) : option page :=
  let w := live p in
  match e with
  | SelectModel name => Some (Page (setSelectedModel name w) (tasks p))
  | SelectVoice path => Some (Page (setSelectedVoice path w) (tasks p))
  | MoveSlider value => Some (Page (setResponseLength value w) (tasks p))
  | ToggleAutoPlay =>
      Some (Page (setAutoPlay (negb (autoPlay (st w))) w) (tasks p))
  | TypeInput text =>
      if loading (st w) then None
      else Some (Page (setInput text w) (tasks p))
  | Send now =>
      if loading (st w) then None
      else Some (add_task (AwaitGenerate (st w))
                          (sendMessage_start (st w) now w) (tasks p))
  | ClickSpeaker index =>
      match messages (st w) !! index with
      | Some message =>
          match role_of message with
          | assistant =>
              if is_empty (trim (content message))
                 || bool_decide (generatingAudio (st w) = Some (id message))
              then None
              else if bool_decide (playingAudio (st w) = Some (id message))
              then Some (Page (stopTTS (id message) w) (tasks p))
              else Some (add_task (AwaitTts (st w) (id message))
                                  (generateTTS_start (st w) (content message)
                                                     (id message) w)
                                  (tasks p))
          | user => None
          end
      | None => None
      end
  | GenerateResolves k now response =>
      match tasks p !! k with
      | Some (AwaitGenerate env _) =>
          Some (add_task AwaitTimer (sendMessage_resolved env now response w)
                         (delete k (tasks p)))
      | _ => None
      end
  | GenerateRejects k now =>
      match tasks p !! k with
      | Some (AwaitGenerate _ _) =>
          Some (Page (sendMessage_rejected now w) (delete k (tasks p)))
      | _ => None
      end
  | TimerFires k =>
      match tasks p !! k with
      | Some (AwaitTimer t) =>
          Some (add_task (AwaitTts (timer_env t) (timer_id t))
                         (generateTTS_start (timer_env t) (timer_text t)
                                            (timer_id t) w)
                         (delete k (tasks p)))
      | _ => None
      end
  | TtsResolves k data outcome =>
      match tasks p !! k with
      | Some (AwaitTts env messageId _) =>
          Some (Page (generateTTS_resolved env messageId data outcome w)
                     (delete k (tasks p)))
      | _ => None
      end
  | TtsRejects k =>
      match tasks p !! k with
      | Some (AwaitTts _ _ _) =>
          Some (Page (generateTTS_rejected w) (delete k (tasks p)))
      | _ => None
      end
  | PlaybackAdvances h dt =>
      match audios w !! h with
      | Some a =>
          if paused a then None
          else Some (Page (on_audio h (fun a =>
                             Audio (src a) false (currentTime a + dt)) w)
                          (tasks p))
      | None => None
      end
  | PlaybackEnds h =>
      match audios w !! h with
      | Some a =>
          if paused a then None
          else Some (Page (audio_onended (on_audio h pause w)) (tasks p))
      | None => None
      end
  | PlaybackFails h =>
      match audios w !! h with
      | Some _ => Some (Page (audio_onerror w) (tasks p))
      | None => None
      end
  end.

(** A sequence of events from a page; [None] as soon as one cannot happen. *)
Fixpoint steps (p : page) (es : list event) : option page :=
  match es with
  | [] => Some p
  | e :: es' =>
      match step p e with
      | Some p' => steps p' es'
      | None => None
      end
  end.

(** The audio element registered for a message, if any. *)
Definition audio_of (w : world) (messageId : jsstring) : option audio :=
  match audioRefs w !! messageId with
  | Some h => audios w !! h
  | None => None
  end.

(** Following the words of the specification: the instruction that belongs
    to a response-length setting between 1 and 10. *)
Definition instruction_of_setting (v : Z) : jsstring :=
  if bool_decide (v = 1 \/ v = 2 \/ v = 3)%Z then short_instruction
  else if bool_decide (4 <= v <= 7)%Z then medium_instruction
  else long_instruction.

End Chatbot.

(** ** Sample sessions of the page *)

Module ChatSamples.

Import Chatbot.

(** A successful body from [/api/tts]: three bytes of audio in base64. *)
Definition spoken : tts_data := TtsData true (Some (lit "QUJD")) None.

(** The user picks a model and gets two answers; the clock gives the
    answers the ids 2001 and 4001. *)
Definition two_answers : list event :=
  [SelectModel (lit "llama3");
   TypeInput (lit "hi"); Send 1000; GenerateResolves 0 2000 (lit "hello");
   TypeInput (lit "more"); Send 3000; GenerateResolves 0 4000 (lit "again")].

Definition first_answer : jsstring := lit "2001".
Definition second_answer : jsstring := lit "4001".

(** The user clicks the speaker of the first answer and, before its audio
    has arrived, the speaker of the second; then the first audio arrives
    and starts. *)
Definition first_playing : list event :=
  two_answers ++ [ClickSpeaker 1; ClickSpeaker 3; TtsResolves 0 spoken Plays].

(** ... and then the second audio arrives and starts. *)
Definition overlapping_speakers : list event :=
  first_playing ++ [TtsResolves 0 spoken Plays].

(** The first answer is played to its end, then the second is started. *)
Definition one_after_the_other : list event :=
  two_answers ++ [ClickSpeaker 1; TtsResolves 0 spoken Plays;
                  PlaybackEnds 0;
                  ClickSpeaker 3; TtsResolves 0 spoken Plays;
                  PlaybackAdvances 1 700].

(** The page a session ends in (the initial page if it cannot happen). *)
Definition page_after (es : list event) : page :=
  default initial_page (steps initial_page es).

(** The user sends a message with the slider on 5 and the request fails. *)
Definition failed_send : list event :=
  [SelectModel (lit "llama3"); TypeInput (lit "hi"); Send 1000].

(** The render of a user who has typed a question with the slider on 9. *)
Definition asking : state :=
  State (lit "llama3") [] (lit "Why is the sky blue?") false [] None None
        false [9%Z].

End ChatSamples.

(** ** The page over time *)

Module Session.

Import Chatbot.

(** Lines 46-53, the cleanup of the unmount effect: every element that
    [audioRefs.current] holds is paused (the object URL it then revokes is
    not part of the model). *)
Definition cleanup (w : world) : world :=
  foldr (fun h w => on_audio h pause w) w ((map_to_list (audioRefs w)).*2).

Definition is_generate (t : task) : bool :=
  match t with
  | AwaitGenerate _ _ => true
  | AwaitTts _ _ _ | AwaitTimer _ => false
  end.

(** The generation requests that have not settled yet. *)
Definition pending_generations (p : page) : list task :=
  List.filter is_generate (tasks p).

Definition other (r : role) : role :=
  match r with
  | user => assistant
  | assistant => user
  end.

Definition has_role (r : role) (m : Message) : bool :=
  match r, role_of m with
  | user, user | assistant, assistant => true
  | _, _ => false
  end.

(** [turns next ms] is [Some r] when the messages take turns, the first one
    having the role [next]; [r] is then the role whose turn it is after the
    last message. *)
Fixpoint turns (next : role) (ms : list Message) : option role :=
  match ms with
  | [] => Some next
  | m :: ms' => if has_role next m then turns (other next) ms' else None
  end.

(** The message and the text that a task is going to have spoken. *)
Definition speech_of (t : task) : option (jsstring * jsstring) :=
  match t with
  | AwaitTts _ messageId request => Some (messageId, tts_text request)
  | AwaitTimer t => Some (timer_id t, timer_text t)
  | AwaitGenerate _ _ => None
  end.

(** [text] is what the assistant said in the message [messageId]. *)
Definition is_answer (ms : list Message) (messageId text : jsstring) : Prop :=
  exists m, m ∈ ms /\ id m = messageId /\ role_of m = assistant
            /\ content m = text.

(** One generation request at most is in flight, exactly while the page is
    loading, and the conversation takes turns: the user first, and the
    assistant's turn exactly while the page is loading. *)
Definition in_turn (p : page) : Prop :=
  length (pending_generations p)
    = (if loading (st (live p)) then 1 else 0)%nat
  /\ turns user (messages (st (live p)))
     = Some (if loading (st (live p)) then assistant else user).

(** Every entry of the registry names an element that exists, and the
    playing pointer names a registered message. *)
Definition registry_ok (w : world) : Prop :=
  (forall messageId h, audioRefs w !! messageId = Some h ->
     (h < length (audios w))%nat)
  /\ (forall messageId, playingAudio (st w) = Some messageId ->
        is_Some (audioRefs w !! messageId)).

(** What a task is going to have spoken is what the assistant said in the
    message it names, and no request carries a blank text. *)
Definition task_ok (ms : list Message) (t : task) : Prop :=
  match t with
  | AwaitTts _ messageId request =>
      is_answer ms messageId (tts_text request)
      /\ blank (tts_text request) = false
  | AwaitTimer t => is_answer ms (timer_id t) (timer_text t)
  | AwaitGenerate _ _ => True
  end.

(** Every element of [w] is still there in [w'], with the same bytes. *)
Definition audio_kept (w w' : world) : Prop :=
  forall h a, audios w !! h = Some a ->
    exists a', audios w' !! h = Some a' /\ src a' = src a.

(** The pages that a session can reach. *)
Definition reachable (p : page) : Prop :=
  exists es, steps initial_page es = Some p.

(** The first answer is playing, with nothing else going on. *)
Definition first_alone : list event :=
  ChatSamples.two_answers
    ++ [ClickSpeaker 1; TtsResolves 0 ChatSamples.spoken Plays].

(** The speaker of the first answer has just been clicked. *)
Definition first_requested : list event :=
  ChatSamples.two_answers ++ [ClickSpeaker 1].

End Session.

(** ** The request body on the wire *)

Module Wire.

Import Chatbot.

Local Open Scope N_scope.

Definition is_high_surrogate (c : N) : bool :=
  (55296 <=? c) && (c <=? 56319).

Definition is_low_surrogate (c : N) : bool :=
  (56320 <=? c) && (c <=? 57343).

(** A lower-case hexadecimal digit. *)
Definition hex_digit (d : N) : N := if d <? 10 then 48 + d else 87 + d.

(** The escape of a code unit by its four hexadecimal digits. *)
Definition unicode_escape (c : N) : jsstring :=
  [92; 117; hex_digit (c / 4096); hex_digit ((c / 256) mod 16);
   hex_digit ((c / 16) mod 16); hex_digit (c mod 16)].

(** ECMA-262 [QuoteJSONString] on a code unit that is not a surrogate: the
    two-character escapes, the four-digit escape of the other control
    characters, or the character itself. *)
Definition quote_unit (c : N) : jsstring :=
  if c =? 8 then [92; 98]
  else if c =? 9 then [92; 116]
  else if c =? 10 then [92; 110]
  else if c =? 12 then [92; 102]
  else if c =? 13 then [92; 114]
  else if c =? 34 then [92; 34]
  else if c =? 92 then [92; 92]
  else if c <? 32 then unicode_escape c
  else [c].

(** A surrogate pair goes out as it is, a lone surrogate escaped;
    [after_high] tells that the unit before was the first half of a
    pair. *)
Fixpoint quote_units (after_high : bool) (s : jsstring) : jsstring :=
  match s with
  | [] => []
  | c :: r =>
      if is_high_surrogate c
         && match r with d :: _ => is_low_surrogate d | [] => false end
      then c :: quote_units true r
      else if is_low_surrogate c && after_high
      then c :: quote_units false r
      else if is_high_surrogate c || is_low_surrogate c
      then unicode_escape c ++ quote_units false r
      else quote_unit c ++ quote_units false r
  end.

Definition QuoteJSONString (s : jsstring) : jsstring :=
  34 :: quote_units false s ++ [34].

(** Lines 91-94: [JSON.stringify({ text, voice: selectedVoice || undefined })];
    a property that is [undefined] is left out. *)
Definition tts_body (request : tts_request) : jsstring :=
  lit "{" ++ QuoteJSONString (lit "text") ++ lit ":"
    ++ QuoteJSONString (tts_text request)
    ++ match tts_voice request with
       | Some v => lit "," ++ QuoteJSONString (lit "voice") ++ lit ":"
                     ++ QuoteJSONString v
       | None => []
       end
    ++ lit "}".

End Wire.

(** * Part II: the facts *)

(** ** Trimming *)

Section Trimming.

Implicit Types (s x w m : jsstring) (c d : N).

Lemma is_whitespace_LF : is_whitespace LF = true.
Proof. reflexivity. Qed.

Lemma blank_app x w : blank (x ++ w) = blank x && blank w.
Proof. unfold blank. apply forallb_app. Qed.

Lemma blank_reverse x : blank (reverse x) = blank x.
Proof.
  induction x as [|c x IH]; [done|].
  rewrite reverse_cons, blank_app, IH. simpl. rewrite andb_true_r.
  apply andb_comm.
Qed.

Lemma trimStart_blank_app w x :
  blank w = true -> trimStart (w ++ x) = trimStart x.
Proof.
  induction w as [|c w IH]; simpl; [done|].
  intros [Hc Hw]%andb_true_iff. rewrite Hc. auto.
Qed.

Lemma trimStart_head x c :
  head x = Some c -> is_whitespace c = false -> trimStart x = x.
Proof. destruct x; simpl; [done|]. intros [= ->] ->. done. Qed.

Lemma trimEnd_app_blank x w :
  blank w = true -> trimEnd (x ++ w) = trimEnd x.
Proof.
  intros Hw. unfold trimEnd. rewrite reverse_app.
  rewrite trimStart_blank_app; [done|]. by rewrite blank_reverse.
Qed.

Lemma trimEnd_last x d :
  last x = Some d -> is_whitespace d = false -> trimEnd x = x.
Proof.
  intros Hl Hd. unfold trimEnd.
  rewrite (trimStart_head _ d); [apply reverse_involutive| |done].
  by rewrite head_reverse.
Qed.

(** [trim] returns the core of a string wrapped in blank margins. *)
Lemma trim_core w1 m w2 :
  blank w1 = true -> blank w2 = true -> trimmed m ->
  trim (w1 ++ m ++ w2) = m.
Proof.
  intros H1 H2 [(c & Hc & Hcw) (d & Hd & Hdw)]. unfold trim.
  rewrite trimStart_blank_app by done.
  rewrite (trimStart_head _ c); [| by destruct m | done].
  rewrite trimEnd_app_blank by done. by apply (trimEnd_last _ d).
Qed.

Lemma trim_trimmed m : trimmed m -> trim m = m.
Proof.
  intros Hm. rewrite <- (app_nil_r m) at 1. by apply (trim_core [] m []).
Qed.

Lemma trim_blank w : blank w = true -> trim w = [].
Proof.
  intros Hw. unfold trim.
  rewrite <- (app_nil_r w), trimStart_blank_app by done. done.
Qed.

Lemma trimStart_split x :
  exists w, blank w = true /\ x = w ++ trimStart x.
Proof.
  induction x as [|c x (w & Hw & IH)]; simpl.
  - by exists [].
  - destruct (is_whitespace c) eqn:Hc.
    + exists (c :: w). simpl. rewrite Hc, Hw. split; [done|]. by f_equal.
    + by exists [].
Qed.

Lemma trimEnd_split x :
  exists w, blank w = true /\ x = trimEnd x ++ w.
Proof.
  destruct (trimStart_split (reverse x)) as (w & Hw & Hx).
  exists (reverse w). rewrite blank_reverse. split; [done|].
  unfold trimEnd. rewrite <- reverse_app, <- Hx.
  by rewrite reverse_involutive.
Qed.

Lemma trimStart_head_keeps x :
  trimStart x = [] \/
  exists c, head (trimStart x) = Some c /\ is_whitespace c = false.
Proof.
  induction x as [|c x IH]; simpl; [by left|].
  destruct (is_whitespace c) eqn:Hc; [done|]. right. by exists c.
Qed.

Lemma trimmed_not_blank m : trimmed m -> blank m = false.
Proof.
  intros [(c & Hc & Hcw) _]. destruct m as [|c' m]; [done|].
  simpl in *. injection Hc as ->. by rewrite Hcw.
Qed.

(** A string is blank, or it is a trimmed core between two blank margins. *)
Lemma blank_or_core x :
  blank x = true \/
  exists w1 m w2, x = w1 ++ m ++ w2 /\ blank w1 = true /\ blank w2 = true
                  /\ trimmed m.
Proof.
  destruct (trimStart_split x) as (w1 & Hw1 & Hx).
  destruct (trimStart_head_keeps x) as [Hnil | (c & Hc & Hcw)].
  { left. rewrite Hx, Hnil, app_nil_r. done. }
  right. set (y := trimStart x) in *.
  destruct (trimEnd_split y) as (w2 & Hw2 & Hy).
  assert (trimEnd y <> []) as Hne.
  { intros Hnil. rewrite Hnil in Hy. simpl in Hy. subst w2.
    destruct y as [|c' y']; [done|]. simpl in Hc, Hw2.
    injection Hc as ->. by rewrite Hcw in Hw2. }
  exists w1, (trimEnd y), w2. repeat split; try done.
  - by rewrite <- Hy.
  - exists c. split; [|done]. rewrite Hy in Hc.
    destruct (trimEnd y); done.
  - unfold trimEnd in *. rewrite last_reverse.
    destruct (trimStart_head_keeps (reverse y)) as [Hnil | ?]; [|done].
    rewrite Hnil in Hne. done.
Qed.

Lemma is_empty_trim_blank x : is_empty (trim x) = blank x.
Proof.
  destruct (blank_or_core x) as [Hb | (w1 & m & w2 & -> & H1 & H2 & Hm)].
  - by rewrite trim_blank, Hb.
  - rewrite trim_core by done. rewrite !blank_app, H1, H2, andb_true_r.
    simpl. rewrite (trimmed_not_blank m Hm).
    destruct Hm as [(c & Hc & _) _]. by destruct m.
Qed.

End Trimming.

(** ** Splitting into lines *)

Section Lines.

Variable sep : N.

Implicit Types (s a b : jsstring) (ls : list jsstring).

Lemma split_not_nil s : split sep s <> [].
Proof.
  destruct s as [|c s]; simpl; [done|].
  destruct (c =? sep)%N; [done|]. by destruct (split sep s).
Qed.

Lemma split_no_sep a : sep ∉ a -> split sep a = [a].
Proof.
  induction a as [|c a IH]; [done|].
  intros [Hc Ha]%not_elem_of_cons. simpl.
  destruct (N.eqb_spec c sep); [done|]. by rewrite IH.
Qed.

Lemma split_app_sep a b :
  split sep (a ++ sep :: b) = split sep a ++ split sep b.
Proof.
  induction a as [|c a IH]; simpl.
  - by rewrite N.eqb_refl.
  - destruct (c =? sep)%N; [by rewrite IH|].
    rewrite IH. pose proof (split_not_nil a). by destruct (split sep a).
Qed.

Lemma split_lines_no_sep s : Forall (fun l => sep ∉ l) (split sep s).
Proof.
  induction s as [|c s IH]; simpl.
  - repeat constructor. by intros ?%elem_of_nil.
  - destruct (N.eqb_spec c sep).
    + constructor; [by intros ?%elem_of_nil | done].
    + destruct (split sep s) as [|l ls].
      * repeat constructor. by intros ?%list_elem_of_singleton.
      * inversion_clear IH. constructor; [|done].
        by intros [?|?]%elem_of_cons.
Qed.

Lemma join_split s : join sep (split sep s) = s.
Proof.
  induction s as [|c s IH]; [done|]. simpl.
  pose proof (split_not_nil s) as Hne.
  destruct (c =? sep)%N eqn:Hc.
  - apply N.eqb_eq in Hc as ->. simpl. destruct (split sep s); [done|].
    by rewrite IH.
  - destruct (split sep s) as [|l ls]; [done|]. simpl in *.
    destruct ls; by rewrite <- IH.
Qed.

Lemma join_cons l ls :
  join sep (l :: ls) = l ++ concat ((fun x => sep :: x) <$> ls).
Proof.
  revert l. induction ls as [|l' ls IH]; intros l; simpl.
  - by rewrite app_nil_r.
  - specialize (IH l'). simpl in IH. by rewrite IH.
Qed.

Lemma join_cons_cons l ls :
  ls <> [] -> join sep (l :: ls) = l ++ sep :: join sep ls.
Proof. by destruct ls. Qed.

Lemma join_app_cons ls1 l ls2 :
  join sep (ls1 ++ l :: ls2) =
  concat ((fun x => x ++ [sep]) <$> ls1) ++ l
    ++ concat ((fun x => sep :: x) <$> ls2).
Proof.
  induction ls1 as [|l1 ls1 IH].
  - apply join_cons.
  - change ((l1 :: ls1) ++ l :: ls2) with (l1 :: (ls1 ++ l :: ls2)).
    rewrite join_cons_cons by (by destruct ls1).
    rewrite IH. simpl. by rewrite <- !app_assoc.
Qed.

Lemma last_concat_sep ls :
  ls <> [] -> last (concat ((fun x => x ++ [sep]) <$> ls)) = Some sep.
Proof.
  induction ls as [|l ls IH]; [done|]. intros _.
  rewrite fmap_cons, concat_cons, last_app.
  destruct ls as [|l' ls].
  - simpl. by rewrite last_snoc.
  - by rewrite IH.
Qed.

End Lines.

Lemma blank_concat_lines (ls : list jsstring) :
  Forall (fun l => blank l = true) ls ->
  blank (concat ((fun x => LF :: x) <$> ls)) = true.
Proof.
  induction 1 as [|l ls Hl _ IH]; [done|].
  rewrite fmap_cons, concat_cons, blank_app, IH, andb_true_r.
  exact Hl.
Qed.

(** ** The last line that the route parses *)

Section LastLine.

Import TtsRoute.

Implicit Types (out L P Q : jsstring).

Lemma trimmed_span (a x b : jsstring) :
  trimmed a -> trimmed b -> trimmed (a ++ x ++ b).
Proof.
  intros [(c & Hc & Hcw) _] [_ (d & Hd & Hdw)]. split.
  - exists c. split; [|done]. destruct a; [done|]. done.
  - exists d. split; [|done]. rewrite app_assoc, last_app, Hd. done.
Qed.

(** Where the final non-empty line sits in the output: after a prefix that
    is empty or ends a line, and before nothing but whitespace. *)
Lemma final_nonempty_line_shape out L :
  final_nonempty_line out = Some L ->
  exists P Q, out = P ++ L ++ Q /\ blank Q = true
              /\ (P = [] \/ last P = Some LF)
              /\ (LF ∉ L) /\ blank L = false.
Proof.
  unfold final_nonempty_line. intros Hlast.
  assert (blank L = false) as HL.
  { apply last_Some_elem_of, list_elem_of_filter in Hlast.
    by destruct Hlast. }
  apply last_filter_Some in Hlast as (l1 & l2 & Hsplit & Hl2).
  exists (concat ((fun x => x ++ [LF]) <$> l1)),
         (concat ((fun x => LF :: x) <$> l2)).
  repeat split.
  - rewrite <- join_app_cons, <- Hsplit. by rewrite join_split.
  - apply blank_concat_lines. eapply Forall_impl; [exact Hl2|].
    intros l Hl. by apply not_false_iff_true.
  - destruct l1 as [|l l1]; [by left|]. right. by apply last_concat_sep.
  - pose proof (split_lines_no_sep LF out) as Hno. rewrite Hsplit in Hno.
    apply Forall_app in Hno as [_ Hno]. by inversion Hno.
  - done.
Qed.

(** The element the route takes, [lines[lines.length - 1]] of the trimmed
    output, differs from the final non-empty line by blank margins only. *)
Lemma last_line_of_trim out L :
  final_nonempty_line out = Some L ->
  exists line, last (split LF (trim out)) = Some line /\ trim line = trim L.
Proof.
  intros (P & Q & -> & HQ & HP & HnoLF & HL)%final_nonempty_line_shape.
  destruct (blank_or_core L) as [Hb | (w1 & m & w2 & -> & H1 & H2 & Hm)];
    [congruence|].
  assert (LF ∉ w1 ++ m) as Hno.
  { rewrite app_assoc in HnoLF. by apply not_elem_of_app in HnoLF as [? _]. }
  assert (trim (w1 ++ m ++ w2) = m) as HtrimL by (by apply trim_core).
  rewrite HtrimL.
  destruct (blank_or_core P) as [Hb | (wp & mp & wp2 & -> & Hp1 & Hp2 & Hmp)].
  - (* nothing but whitespace before the line *)
    exists m. split; [|by apply trim_trimmed].
    replace (P ++ (w1 ++ m ++ w2) ++ Q) with ((P ++ w1) ++ m ++ (w2 ++ Q))
      by (by rewrite <- !app_assoc).
    rewrite trim_core; [| by rewrite blank_app, Hb, H1
                        | by rewrite blank_app, H2, HQ | done].
    rewrite split_no_sep; [done|].
    by apply not_elem_of_app in Hno as [_ ?].
  - (* an earlier line shows through *)
    exists (w1 ++ m). split.
    2:{ rewrite <- (app_nil_r m) at 1. by apply trim_core. }
    destruct HP as [Hnil | Hlast].
    { destruct wp, mp; try done. by destruct Hmp as [(? & ? & _) _]. }
    destruct wp2 as [|e u _] using rev_ind.
    { rewrite app_nil_r, last_app in Hlast.
      destruct Hmp as [_ (d & Hd & Hdw)]. rewrite Hd in Hlast.
      injection Hlast as ->. by rewrite is_whitespace_LF in Hdw. }
    rewrite !app_assoc, last_snoc in Hlast. injection Hlast as ->.
    replace ((wp ++ mp ++ u ++ [LF]) ++ (w1 ++ m ++ w2) ++ Q)
      with (wp ++ (mp ++ (u ++ LF :: w1) ++ m) ++ (w2 ++ Q))
      by (rewrite <- ?app_assoc; simpl; by rewrite <- ?app_assoc).
    rewrite trim_core; [| done | by rewrite blank_app, H2, HQ
                        | by apply trimmed_span].
    replace (mp ++ (u ++ LF :: w1) ++ m) with ((mp ++ u) ++ LF :: (w1 ++ m))
      by (rewrite <- ?app_assoc; simpl; by rewrite <- ?app_assoc).
    rewrite split_app_sep, (split_no_sep _ (w1 ++ m)) by done.
    by rewrite last_snoc.
Qed.

Lemma lookup_last_index {A} (l : list A) :
  l !! (length l - 1)%nat = last l.
Proof. rewrite last_lookup. f_equal. lia. Qed.

(** What [parse_last_line] parses when there is a final non-empty line. *)
Lemma parse_last_line_final out L :
  final_nonempty_line out = Some L ->
  parse_last_line out = JSON_parse (trim L).
Proof.
  intros (line & Hline & Htrim)%last_line_of_trim.
  unfold parse_last_line. by rewrite lookup_last_index, Hline, Htrim.
Qed.

(** What [parse_last_line] parses when there is none. *)
Lemma parse_last_line_blank out :
  blank out = true -> parse_last_line out = JSON_parse [].
Proof.
  intros Hb. unfold parse_last_line. by rewrite trim_blank.
Qed.

End LastLine.

(** ** [JSON.parse] and surrounding whitespace *)

Section JsonWhitespace.

Local Open Scope N_scope.

Lemma is_whitespace_listed c :
  is_whitespace c = true <-> c ∈ whitespace_chars.
Proof.
  split.
  - unfold is_whitespace.
    rewrite !orb_true_iff, !andb_true_iff, !N.eqb_eq, !N.leb_le.
    intros H. unfold whitespace_chars. rewrite !elem_of_cons. lia.
  - unfold whitespace_chars. rewrite !elem_of_cons, elem_of_nil.
    intros H. repeat destruct H as [->|H]; done.
Qed.

(** One case for each whitespace character. *)
Ltac each_whitespace H :=
  apply is_whitespace_listed in H; unfold whitespace_chars in H;
  repeat (apply elem_of_cons in H as [->|H]; [try reflexivity|]);
  try (by apply elem_of_nil in H).

(** JSON whitespace is whitespace for [trim]. *)
Lemma json_ws_is_whitespace c : is_json_ws c = true -> is_whitespace c = true.
Proof.
  unfold is_json_ws. rewrite !orb_true_iff, !N.eqb_eq.
  intros [[[->| ->]| ->]| ->]; reflexivity.
Qed.

(** The whitespace that [trim] strips and JSON does not allow begins no
    token. *)
Lemma lex_start_whitespace ts c :
  is_whitespace c = true ->
  lex_start ts c = (if is_json_ws c then Lexer ts LStart else lex_fail).
Proof. intros Hc. each_whitespace Hc. Qed.

Lemma num_next_whitespace st c :
  is_whitespace c = true -> num_next st c = None.
Proof. intros Hc. each_whitespace Hc; by destruct st. Qed.

Lemma is_letter_whitespace c :
  is_whitespace c = true -> is_letter c = false.
Proof. intros Hc. each_whitespace Hc. Qed.

Lemma string_step_whitespace ts acc c r :
  is_whitespace c = true ->
  lex_finish (lex_step (Lexer ts (LString acc)) c) = Some r -> False.
Proof. intros Hc. each_whitespace Hc; done. Qed.

Lemma lex_step_fail c : lex_step lex_fail c = lex_fail.
Proof. done. Qed.

Lemma lex_run_fail s : lex_run lex_fail s = lex_fail.
Proof. induction s as [|c s IH]; [done|]. exact IH. Qed.

Lemma lex_run_app l a b : lex_run l (a ++ b) = lex_run (lex_run l a) b.
Proof. apply fold_left_app. Qed.

(** Reading one more whitespace character never turns an input that does
    not end on a token boundary into one that does. *)
Lemma lex_finish_step_whitespace l c ts :
  is_whitespace c = true ->
  lex_finish (lex_step l c) = Some ts ->
  lex_finish l = Some ts.
Proof.
  intros Hc. destruct l as [ts0 md]. unfold lex_step, lex_finish. simpl.
  destruct md as [|acc|acc|acc|acc read value|st acc|]; simpl.
  - rewrite lex_start_whitespace by done. by destruct (is_json_ws c).
  - rewrite is_letter_whitespace by done.
    destruct (word_token (reverse acc)) as [t|]; [|done].
    rewrite lex_start_whitespace by done. by destruct (is_json_ws c).
  - intros H. by apply string_step_whitespace in H.
  - destruct (escape_char c); [done|]. by destruct (c =? 117).
  - destruct (hex_value c); [|done]. by case_decide.
  - rewrite num_next_whitespace by done.
    destruct (num_accepting st); [|done].
    rewrite lex_start_whitespace by done. by destruct (is_json_ws c).
  - done.
Qed.

Lemma lex_finish_drop_blank l x w ts :
  blank w = true ->
  lex_finish (lex_run l (x ++ w)) = Some ts ->
  lex_finish (lex_run l x) = Some ts.
Proof.
  revert x. induction w as [|c w IH]; intros x Hw.
  - by rewrite app_nil_r.
  - simpl in Hw. apply andb_true_iff in Hw as [Hc Hw].
    rewrite (cons_middle c x w), app_assoc. intros H%IH; [|done].
    rewrite lex_run_app in H. by apply lex_finish_step_whitespace in H.
Qed.

Lemma tokenize_trimStart s ts :
  tokenize s = Some ts -> tokenize (trimStart s) = Some ts.
Proof.
  unfold tokenize. induction s as [|c s IH]; [done|]. simpl.
  destruct (is_whitespace c) eqn:Hc; [|done].
  change (lex_step (Lexer [] LStart) c) with (lex_start [] c).
  rewrite lex_start_whitespace by done.
  destruct (is_json_ws c); [done|].
  change (fold_left lex_step s lex_fail) with (lex_run lex_fail s).
  by rewrite lex_run_fail.
Qed.

Lemma tokenize_trimEnd s ts :
  tokenize s = Some ts -> tokenize (trimEnd s) = Some ts.
Proof.
  destruct (trimEnd_split s) as (w & Hw & Hs). unfold tokenize.
  rewrite Hs at 1. by apply lex_finish_drop_blank.
Qed.

Lemma tokenize_trim s ts :
  tokenize s = Some ts -> tokenize (trim s) = Some ts.
Proof. intros H. by apply tokenize_trimEnd, tokenize_trimStart. Qed.

(** A text that parses still parses, to the same value, once trimmed. *)
Lemma JSON_parse_trim s v :
  JSON_parse s = Some v -> JSON_parse (trim s) = Some v.
Proof.
  unfold JSON_parse. destruct (tokenize s) as [ts|] eqn:Hts; [|done].
  by rewrite (tokenize_trim s ts Hts).
Qed.

Lemma JSON_parse_empty : JSON_parse [] = None.
Proof. reflexivity. Qed.

End JsonWhitespace.

(** ** The fuel of the parser *)

Section JsonFuel.

Implicit Types (ts r : list token) (m n : nat).

Ltac lift_fuel IH H :=
  let Hlt := fresh "Hlt" in
  let Hup := fresh "Hup" in
  destruct (IH _ _ _ H) as [Hlt Hup].

Ltac enough_fuel :=
  split; [simpl in *; lia|];
  let n := fresh "n" in
  let Hn := fresh "Hn" in
  intros [|n] Hn; [simpl in *; lia|]; simpl;
  repeat match goal with
         | Hup : forall n, _ -> _ = Some _ |- _ =>
             rewrite Hup by (simpl in *; lia); clear Hup
         end;
  done.

(** A successful parse consumes tokens, and two units of fuel for each
    consumed token are enough to repeat it. *)
Lemma parse_fuel_enough m :
  (forall ts v r, parse_value m ts = Some (v, r) ->
     (length r < length ts)%nat
     /\ forall n, (2 * (length ts - length r) <= n + 1)%nat ->
                  parse_value n ts = Some (v, r))
  /\ (forall ts vs r, parse_elements m ts = Some (vs, r) ->
     (length r < length ts)%nat
     /\ forall n, (2 * (length ts - length r) <= n + 1)%nat ->
                  parse_elements n ts = Some (vs, r))
  /\ (forall ts o ps r, parse_members m o ts = Some (ps, r) ->
     (length r < length ts)%nat
     /\ forall n, (2 * (length ts - length r) <= n + 1)%nat ->
                  parse_members n o ts = Some (ps, r)).
Proof.
  induction m as [|m (IHv & IHe & IHm)]; [by repeat split|].
  split; [|split].
  - intros ts v r H. simpl in H.
    repeat case_match; simplify_eq; try enough_fuel.
    all: match goal with
         | H : parse_elements _ _ = Some _ |- _ => lift_fuel IHe H
         | H : parse_members _ _ _ = Some _ |- _ =>
             destruct (IHm _ _ _ _ H) as [? ?]
         end; enough_fuel.
  - intros ts vs r H. simpl in H.
    repeat case_match; simplify_eq.
    all: repeat match goal with
         | H : parse_value _ _ = Some _ |- _ => lift_fuel IHv H; clear H
         | H : parse_elements _ _ = Some _ |- _ => lift_fuel IHe H; clear H
         end; enough_fuel.
  - intros ts o ps r H. simpl in H.
    repeat case_match; simplify_eq.
    all: repeat match goal with
         | H : parse_value _ _ = Some _ |- _ => lift_fuel IHv H; clear H
         | H : parse_members _ _ _ = Some _ |- _ =>
             destruct (IHm _ _ _ _ H) as [? ?]; clear H
         end; enough_fuel.
Qed.

(** [JSON_parse] never fails for want of fuel: a parse of the whole text
    that succeeds with some fuel succeeds with the fuel it gives. *)
Lemma JSON_parse_any_fuel (s : jsstring) ts m v :
  tokenize s = Some ts ->
  parse_value m ts = Some (v, []) ->
  JSON_parse s = Some v.
Proof.
  intros Hts Hv. unfold JSON_parse. rewrite Hts.
  destruct (parse_fuel_enough m) as (Hval & _ & _).
  destruct (Hval ts v [] Hv) as [_ Hup]. rewrite Hup; [done|]. lia.
Qed.

End JsonFuel.

(** ** What [JSON.stringify] writes *)

Section Serialisation.




(** A number beyond the range of a double is written [null]; a number whose
    double is zero is written [0]. *)
Lemma stringified_number (literal : jsstring) :
  stringified (JNumber literal) =
  match Number_of_literal literal with
  | DZero => JNumber (lit "0")
  | DInfinity => JNull
  | DFinite m e =>
      JNumber ((if negative (decimal_of_literal literal) then lit "-" else [])
                 ++ Number_toString m e)
  end.
Proof.
  simpl. unfold stringify_number. by destruct (Number_of_literal literal).
Qed.

(** How some literals are written. *)
Lemma stringify_number_samples :
  (fun literal => stringify_number (lit literal))
    <$> ["0"; "-0.0"; "1.50"; "1E3"; "0.000001"; "1e-7"; "1e21";
         "123456789012345678901234567890"; "9007199254740993"; "-2.5e-3";
         "1e400"; "-1e400"; "1e-400"; "5e-324"; "1.7976931348623157e308";
         "1.7976931348623159e308"]%string
  = [Some (lit "0"); Some (lit "0"); Some (lit "1.5"); Some (lit "1000");
     Some (lit "0.000001"); Some (lit "1e-7"); Some (lit "1e+21");
     Some (lit "1.2345678901234568e+29"); Some (lit "9007199254740992");
     Some (lit "-0.0025"); None; None; Some (lit "0"); Some (lit "5e-324");
     Some (lit "1.7976931348623157e+308"); None].
Proof. vm_compute. reflexivity. Qed.

End Serialisation.

(** ** The route handler *)

Section RouteFacts.

Import TtsRoute TtsSamples.

Implicit Types (output : list child_event) (c : child).

(** An error body is written as it is. *)
Lemma NextResponse_json_error (msg : string) (code : Z) :
  NextResponse_json (error_body msg) (Some code)
  = Response code (error_body msg).
Proof. reflexivity. Qed.

(** Bytes below 128 are decoded one by one, each as itself. *)
Lemma Buffer_toString_ascii (data : list N) :
  Forall (fun b => (b <= 0x7F)%N) data -> Buffer_toString data = data.
Proof.
  unfold Buffer_toString. induction 1 as [|b data Hb _ IH]; [done|].
  simpl. unfold utf8_lead. apply N.leb_le in Hb. rewrite Hb. simpl.
  by rewrite IH.
Qed.

(** The text that the handler accumulates from an output of such bytes is
    the output, however it is cut into chunks. *)
Lemma written_ascii (chunks : list (list N)) :
  Forall (Forall (fun b => (b <= 0x7F)%N)) chunks ->
  written (stdout_data chunks) = concat chunks.
Proof.
  induction 1 as [|data chunks Hdata _ IH]; [done|].
  simpl. by rewrite Buffer_toString_ascii, IH.
Qed.

(** Output events only feed the two buffers. *)
Lemma listen_output output c :
  Forall (fun e => is_data e = true) output ->
  stdout (fold_left listen output c) = stdout c ++ written output
  /\ settled (fold_left listen output c) = settled c
  /\ console (fold_left listen output c) = console c.
Proof.
  intros Hdata. revert c.
  induction Hdata as [|e output He _ IH]; intros c; simpl.
  - by rewrite app_nil_r.
  - destruct e as [d|d| |]; try done.
    + destruct (IH (listen c (StdoutData d))) as (-> & -> & ->).
      simpl. by rewrite <- app_assoc.
    + by destruct (IH (listen c (StderrData d))) as (-> & -> & ->).
Qed.

Lemma run_output output :
  Forall (fun e => is_data e = true) output ->
  stdout (run output) = written output /\ settled (run output) = None.
Proof.
  intros H. destruct (listen_output output spawned H) as (? & ? & _).
  done.
Qed.

(** The response to a child that runs to its exit is the one that the
    [close] listener resolves with. *)
Lemma respond_exit code output :
  respond (exits_with code output) = settled (on_close code (run output)).
Proof. unfold respond, exits_with, run. by rewrite fold_left_app. Qed.

Lemma respond_exit_zero output :
  Forall (fun e => is_data e = true) output ->
  respond (exits_with (Some 0%Z) output) =
  Some (match parse_last_line (written output) with
        | Some result => NextResponse_json result None
        | None =>
            NextResponse_json (error_body "Invalid response from TTS service")
                              (Some 500%Z)
        end).
Proof.
  intros (Hout & Hset)%run_output. rewrite respond_exit.
  unfold on_close. simpl. rewrite Hout.
  destruct (parse_last_line (written output)); unfold resolve; simpl;
    by rewrite Hset.
Qed.




(** What the body is in that run: the keys [1] and [2] before [b], and
    [0.1] for [0.10]. *)
Lemma ordered_line_is_reordered :
  respond (exits_with (Some 0%Z) [StdoutData ordered_line]) =
  Some (Response 200 (JObject [(lit "1", JNull);
                               (lit "2", JBool true);
                               (lit "b", JNumber (lit "0.1"))])).
Proof. vm_compute. reflexivity. Qed.

(** C2. When the child exits with a non-zero code (or is killed, the code
    then being [null]), the response is 500 with the body
    [{ error: "TTS generation failed" }], whatever it wrote. *)
Theorem tts_nonzero_exit_fails output code :
  Forall (fun e => is_data e = true) output ->
  code <> Some 0%Z ->
  respond (exits_with code output) =
  Some (Response 500 (error_body "TTS generation failed")).
Proof.
  intros (Hout & Hset)%run_output Hcode. rewrite respond_exit.
  unfold on_close. rewrite bool_decide_eq_false_2 by done. simpl.
  unfold resolve. simpl. by rewrite Hset.
Qed.

Lemma tts_nonzero_exit_fails_witness :
  respond (exits_with (Some 1%Z) chatty_run) =
  Some (Response 500 (error_body "TTS generation failed")).
Proof.
  apply (tts_nonzero_exit_fails chatty_run (Some 1%Z)).
  - repeat constructor.
  - discriminate.
Defined.

(** C3, as stated, fails: a byte order mark before the result makes the
    final non-empty line invalid JSON, yet the route trims the line before
    it parses it and answers 200 with the value. *)
Lemma tts_bom_line_is_relayed :
  final_nonempty_line (written bom_run) = Some bom_line
  /\ JSON_parse bom_line = None
  /\ respond (exits_with (Some 0%Z) bom_run) =
     Some (Response 200 (JArray [JNumber (lit "1")]))
  /\ respond (exits_with (Some 0%Z) bom_run) <>
     Some (Response 500 (error_body "Invalid response from TTS service")).
Proof.
  repeat split; try (vm_compute; reflexivity). vm_compute. discriminate.
Qed.

(** C3, amended. When the child exits with code 0 and the final non-empty
    line of its standard output, once trimmed, is not valid JSON, the
    response is 500 with the body
    [{ error: "Invalid response from TTS service" }]. *)
Theorem tts_invalid_final_line_fails output L :
  Forall (fun e => is_data e = true) output ->
  final_nonempty_line (written output) = Some L ->
  JSON_parse (trim L) = None ->
  respond (exits_with (Some 0%Z) output) =
  Some (Response 500 (error_body "Invalid response from TTS service")).
Proof.
  intros Hdata Hfinal Hparse. rewrite respond_exit_zero by done.
  by rewrite (parse_last_line_final _ L Hfinal), Hparse.
Qed.

Lemma tts_invalid_final_line_fails_witness :
  respond (exits_with (Some 0%Z) traceback_run) =
  Some (Response 500 (error_body "Invalid response from TTS service")).
Proof.
  apply (tts_invalid_final_line_fails traceback_run
           (lit "  ValueError: empty text  ")).
  - repeat constructor.
  - vm_compute. reflexivity.
  - vm_compute. reflexivity.
Defined.

(** C10. When the child exits with code 0 having written nothing but
    whitespace, the response is 500 with the body
    [{ error: "Invalid response from TTS service" }]. *)
Theorem tts_blank_output_fails output :
  Forall (fun e => is_data e = true) output ->
  blank (written output) = true ->
  respond (exits_with (Some 0%Z) output) =
  Some (Response 500 (error_body "Invalid response from TTS service")).
Proof.
  intros Hdata Hblank. rewrite respond_exit_zero by done.
  by rewrite parse_last_line_blank, JSON_parse_empty.
Qed.

Lemma tts_blank_output_fails_witness :
  respond (exits_with (Some 0%Z) silent_run) =
  Some (Response 500 (error_body "Invalid response from TTS service")).
Proof.
  apply (tts_blank_output_fails silent_run).
  - repeat constructor.
  - vm_compute. reflexivity.
Defined.

(** *** The words "non-empty line" read to the letter *)

(** Valid JSON is never blank. *)
Lemma JSON_parse_not_blank (s : jsstring) v :
  JSON_parse s = Some v -> blank s = false.
Proof.
  intros Hparse%JSON_parse_trim. destruct (blank s) eqn:Hb; [|done].
  by rewrite trim_blank, JSON_parse_empty in Hparse.
Qed.

Lemma filter_blank_lines (ls : list jsstring) :
  Forall (fun l => blank l = true) ls ->
  filter (fun l => blank l = false) ls = [].
Proof.
  induction 1 as [|l ls Hl _ IH]; [done|].
  rewrite filter_cons_False by (by rewrite Hl). done.
Qed.

(** A line that is not blank and has only empty lines after it is the
    final non-empty line in both readings. *)
Lemma final_nonempty_line_of_literal out L :
  final_nonempty_line_literal out = Some L -> blank L = false ->
  final_nonempty_line out = Some L.
Proof.
  unfold final_nonempty_line_literal, final_nonempty_line. intros Hlast HL.
  apply last_filter_Some in Hlast as (l1 & l2 & -> & Hl2).
  rewrite filter_app, filter_cons_True by done.
  rewrite (filter_blank_lines l2), last_snoc; [done|].
  eapply Forall_impl; [exact Hl2|]. intros l Hl. simpl in Hl.
  destruct l; [done|]. by destruct Hl.
Qed.

(** C1 as amended holds to the letter as well: when the last line of the
    output that holds a character at all is valid JSON, it is relayed. *)
Lemma tts_relays_literal_final_line output L v :
  Forall (fun e => is_data e = true) output ->
  final_nonempty_line_literal (written output) = Some L ->
  JSON_parse L = Some v ->
  respond (exits_with (Some 0%Z) output) =
  Some (Response 200 (stringified v)).
Proof.
  intros Hdata Hfinal Hparse. rewrite respond_exit_zero by done.
  rewrite (parse_last_line_final _ L).
  - by rewrite (JSON_parse_trim L v Hparse).
  - apply final_nonempty_line_of_literal; [done|].
    by apply (JSON_parse_not_blank L v).
Qed.

(** C3 fails to the letter as well: a last line of two spaces is not valid
    JSON, and the route answers with the line before it. *)
Lemma tts_trailing_spaces_line_is_skipped :
  final_nonempty_line_literal (written trailing_spaces_run) = Some (lit "  ")
  /\ JSON_parse (lit "  ") = None
  /\ respond (exits_with (Some 0%Z) trailing_spaces_run) =
     Some (Response 200 result_json).
Proof. repeat split; vm_compute; reflexivity. Qed.

(** Blank output is exactly the output without a final non-empty line. *)
Lemma no_final_line_iff_blank (out : jsstring) :
  final_nonempty_line out = None <-> blank out = true.
Proof.
  split.
  - intros Hnone. destruct (blank out) eqn:Hb; [done|]. exfalso.
    unfold final_nonempty_line in Hnone. apply last_None in Hnone.
    assert (Forall (fun l => blank l = true) (split LF out)) as Hall.
    { apply Forall_forall. intros l Hl. destruct (blank l) eqn:E; [done|].
      assert (l ∈ filter (fun l => blank l = false) (split LF out)) as Hin
        by (by apply list_elem_of_filter).
      rewrite Hnone in Hin. by apply elem_of_nil in Hin. }
    pose proof (split_not_nil LF out) as Hne.
    destruct (split LF out) as [|l ls] eqn:Hs; [done|].
    pose proof (join_split LF out) as Hj. rewrite Hs, join_cons in Hj.
    inversion_clear Hall as [|? ? Hl Hls].
    rewrite <- Hj, blank_app, Hl, blank_concat_lines in Hb; done.
  - intros Hb. destruct (final_nonempty_line out) as [L|] eqn:HL; [|done].
    apply final_nonempty_line_shape in HL
      as (P & Q & -> & _ & _ & _ & HLb).
    rewrite !blank_app, HLb in Hb. by destruct (blank P).
Qed.

(** C4, as stated, fails on the body [null]: it has no [text], yet reading
    [text] off it throws, and the outer [catch] answers 500. *)
Lemma tts_null_body_is_internal_error :
  JSON_parse body_null = Some JNull
  /\ text_missing_or_invalid JNull
  /\ POST body_null =
     Returned (Response 500 (error_body "Internal server error"))
              [Log "TTS API error:" []].
Proof. repeat split; vm_compute; reflexivity. Qed.

(** C4, amended. When the body parses to a value other than [null] whose
    [text] is missing, an empty string or not a string, the handler returns
    400 with the body [{ error: "Text is required" }] and launches no child
    process. *)
Theorem tts_text_is_required body parsed :
  JSON_parse body = Some parsed ->
  parsed <> JNull ->
  text_missing_or_invalid parsed ->
  POST body = Returned (Response 400 (error_body "Text is required")) [].
Proof.
  intros Hparse Hnull Htext. unfold POST. rewrite Hparse.
  destruct parsed as [|b|n|s|items|o]; try done. simpl in *.
  destruct (obj_get (lit "text") o) as [[|b|n|s|items|o']|]; simpl;
    rewrite ?orb_true_r; try done.
  by rewrite Htext.
Qed.

Lemma tts_text_is_required_witness :
  POST body_without_text =
  Returned (Response 400 (error_body "Text is required")) [].
Proof.
  apply (tts_text_is_required body_without_text
           (JObject [(lit "voice", JString (lit "default"))])).
  - vm_compute. reflexivity.
  - discriminate.
  - vm_compute. exact I.
Defined.

(** The other way round: a non-empty string [text] launches the child,
    unless [spawn] throws on it or on the voice. *)
Lemma tts_text_launches body o s :
  JSON_parse body = Some (JObject o) ->
  obj_get (lit "text") o = Some (JString s) -> s <> [] ->
  POST body =
  if spawn_refuses (Some (JString s))
     || spawn_refuses (Some (voicePath (obj_get (lit "voice") o)))
  then SpawnThrew
  else Launched (Some (JString s)) (voicePath (obj_get (lit "voice") o)).
Proof.
  intros Hparse Htext Hs. unfold POST. rewrite Hparse. simpl.
  rewrite Htext. simpl. by destruct s.
Qed.

(** C9. When the body of the request is not valid JSON, the handler returns
    500 with the body [{ error: "Internal server error" }], not the 400 of
    the validation. *)
Theorem tts_unparsable_body_is_internal_error body :
  JSON_parse body = None ->
  POST body =
  Returned (Response 500 (error_body "Internal server error"))
           [Log "TTS API error:" []]
  /\ POST body <> Returned (Response 400 (error_body "Text is required")) [].
Proof. intros Hparse. unfold POST. rewrite Hparse. by split. Qed.

Lemma tts_unparsable_body_is_internal_error_witness :
  POST body_truncated =
  Returned (Response 500 (error_body "Internal server error"))
           [Log "TTS API error:" []]
  /\ POST body_truncated <>
     Returned (Response 400 (error_body "Text is required")) [].
Proof.
  apply (tts_unparsable_body_is_internal_error body_truncated).
  vm_compute. reflexivity.
Defined.

End RouteFacts.

(** ** The chat controller *)

Section ChatFacts.

Import Chatbot ChatSamples.

Implicit Types (w : world) (env : state) (p : page).

(** *** [stopTTS] *)

Lemma on_audio_lookup h f w :
  audios (on_audio h f w) !! h = f <$> audios w !! h.
Proof. simpl. apply list_lookup_alter_eq. Qed.

Lemma on_audio_lookup_ne h h' f w :
  h <> h' -> audios (on_audio h f w) !! h' = audios w !! h'.
Proof. intros Hne. simpl. by apply list_lookup_alter_ne. Qed.

(** C8, as stated, fails: with the first answer played to its end and the
    second one playing, [stopTTS] of the first clears a pointer that points
    at the second. *)
Lemma stopTTS_clears_pointer_to_other_message :
  let w := live (page_after one_after_the_other) in
  steps initial_page one_after_the_other
    = Some (page_after one_after_the_other)
  /\ playingAudio (st w) = Some second_answer
  /\ second_answer <> first_answer
  /\ audio_of w second_answer = Some (Audio [65; 66; 67]%N false 700)
  /\ playingAudio (st (stopTTS first_answer w)) = None
  /\ playingAudio (st (stopTTS first_answer w)) <> playingAudio (st w).
Proof. vm_compute. repeat split; discriminate. Qed.

(** C8, amended. [stopTTS(id)] pauses and rewinds the audio element
    registered for [id] if there is one, leaving every other element alone,
    and in that case clears the "currently playing" pointer whatever it
    pointed at; without an element for [id] it changes nothing. *)
Theorem stopTTS_pauses_rewinds_and_clears messageId w :
  match audioRefs w !! messageId with
  | Some h =>
      audio_of (stopTTS messageId w) messageId
        = (fun a => Audio (src a) true 0) <$> audio_of w messageId
      /\ (forall h', h' <> h ->
            audios (stopTTS messageId w) !! h' = audios w !! h')
      /\ audioRefs (stopTTS messageId w) = audioRefs w
      /\ playingAudio (st (stopTTS messageId w)) = None
  | None => stopTTS messageId w = w
  end.
Proof.
  unfold stopTTS, audio_of.
  destruct (audioRefs w !! messageId) as [h|] eqn:Href; [|done].
  simpl. rewrite Href. repeat split.
  - rewrite !list_lookup_alter_eq. by destruct (audios w !! h).
  - intros h' Hne. by rewrite !list_lookup_alter_ne.
Qed.

Lemma stopTTS_pauses_rewinds_and_clears_witness :
  match audioRefs (live (page_after one_after_the_other)) !! second_answer
  with
  | Some h =>
      audio_of (stopTTS second_answer (live (page_after one_after_the_other)))
               second_answer
        = (fun a => Audio (src a) true 0)
            <$> audio_of (live (page_after one_after_the_other)) second_answer
      /\ (forall h', h' <> h ->
            audios (stopTTS second_answer
                            (live (page_after one_after_the_other))) !! h'
            = audios (live (page_after one_after_the_other)) !! h')
      /\ audioRefs (stopTTS second_answer
                            (live (page_after one_after_the_other)))
         = audioRefs (live (page_after one_after_the_other))
      /\ playingAudio (st (stopTTS second_answer
                                   (live (page_after one_after_the_other))))
         = None
  | None =>
      stopTTS second_answer (live (page_after one_after_the_other))
      = live (page_after one_after_the_other)
  end.
Proof.
  apply (stopTTS_pauses_rewinds_and_clears second_answer
           (live (page_after one_after_the_other))).
Defined.

(** On the sample page the second answer is playing, 700 ms in: [stopTTS]
    of it leaves its element paused at 0 and no message playing. *)
Lemma stopTTS_stops_the_playing_message :
  let w := live (page_after one_after_the_other) in
  audio_of w second_answer = Some (Audio [65; 66; 67]%N false 700)
  /\ audio_of (stopTTS second_answer w) second_answer
     = Some (Audio [65; 66; 67]%N true 0)
  /\ playingAudio (st (stopTTS second_answer w)) = None.
Proof. vm_compute. done. Qed.

(** *** [generateTTS] *)

(** When the render that created [generateTTS] is the latest one, so that
    the [playingAudio] it reads is the live pointer, the element of the
    message it points at is paused and rewound. *)
Lemma generateTTS_stops_the_message_of_its_render
    env messageId data outcome w playing h a bytes :
  playingAudio env = Some playing ->
  playing <> [] -> playing <> messageId ->
  audioRefs w !! playing = Some h -> audios w !! h = Some a ->
  success data = true -> truthy (data_audio data) = true ->
  atob (default [] (data_audio data)) = Some bytes ->
  audio_of (generateTTS_resolved env messageId data outcome w) playing
  = Some (Audio (src a) true 0).
Proof.
  intros Henv Hne Hother Href Ha Hs Haudio Hbytes.
  unfold generateTTS_resolved. rewrite Hs, Haudio, Hbytes, Henv. simpl.
  assert (is_empty playing = false) as -> by (by destruct playing).
  rewrite bool_decide_eq_false_2 by done. simpl.
  assert (h < length (audios w))%nat as Hlt by (by eapply lookup_lt_Some).
  assert (audioRefs (register_audio messageId bytes w) !! playing = Some h)
    as Href' by (simpl; by rewrite lookup_insert_ne).
  unfold stopTTS. rewrite Href'. unfold audio_of.
  assert (forall w',
             audioRefs w' = <[messageId:=length (audios w)]> (audioRefs w) ->
             audios w' !! h = Some (Audio (src a) true 0) ->
             match audioRefs w' !! playing with
             | Some h0 => audios w' !! h0
             | None => None
             end = Some (Audio (src a) true 0)) as Hfin.
  { intros w' -> Hw'. by rewrite lookup_insert_ne, Href. }
  assert (alter rewind h (alter pause h (audios w ++ [Audio bytes true 0]))
            !! h = Some (Audio (src a) true 0)) as Hstopped.
  { rewrite !list_lookup_alter_eq, lookup_app_l, Ha by done. done. }
  destruct outcome as [|[]]; apply Hfin; simpl; try done;
    rewrite ?list_lookup_alter_ne by lia; done.
Qed.

(** C5, what the code does: the second [generateTTS] was created by a
    render in which nothing was playing, so when its audio arrives it does
    not stop the first answer, which is playing by then; both elements end
    up sounding, and the pointer names the second only. *)
Theorem generateTTS_leaves_earlier_audio_playing :
  let before := live (page_after first_playing) in
  let after := live (page_after overlapping_speakers) in
  steps initial_page first_playing = Some (page_after first_playing)
  /\ step (page_after first_playing) (TtsResolves 0 spoken Plays)
     = Some (page_after overlapping_speakers)
  /\ playingAudio (st before) = Some first_answer
  /\ audio_of before first_answer = Some (Audio [65; 66; 67]%N false 0)
  /\ first_answer <> second_answer
  /\ playingAudio (st after) = Some second_answer
  /\ audio_of after first_answer = Some (Audio [65; 66; 67]%N false 0)
  /\ audio_of after second_answer = Some (Audio [65; 66; 67]%N false 0).
Proof. vm_compute. repeat split; discriminate. Qed.

(** *** [sendMessage] *)

(** C6. For a response-length setting between 1 and 10, the prompt that
    [sendMessage] submits is one length instruction followed by the input as
    typed: the short one for 1, 2, 3, the medium one for 4 to 7, the long
    one for 8, 9, 10. *)
Theorem sendMessage_prepends_length_instruction env now w v rest :
  responseLength env = v :: rest ->
  (1 <= v <= 10)%Z ->
  is_empty (trim (input env)) = false ->
  is_empty (selectedModel env) = false ->
  (sendMessage_start env now w).2
  = Some (GenerateRequest (selectedModel env)
                          (instruction_of_setting v ++ input env) false)
  /\ ((v = 1 \/ v = 2 \/ v = 3)%Z ->
      instruction_of_setting v = short_instruction)
  /\ ((4 <= v <= 7)%Z -> instruction_of_setting v = medium_instruction)
  /\ ((v = 8 \/ v = 9 \/ v = 10)%Z ->
      instruction_of_setting v = long_instruction).
Proof.
  intros Hlen Hv Hinput Hmodel. unfold sendMessage_start, enhancedPrompt.
  rewrite Hinput, Hmodel, Hlen. simpl.
  unfold instruction_of_setting, lengthInstruction. repeat split.
  - do 2 f_equal. repeat case_bool_decide;
      destruct (Z.leb_spec v 3), (Z.leb_spec v 7); try done; lia.
  - intros H. by rewrite bool_decide_eq_true_2.
  - intros H. rewrite bool_decide_eq_false_2 by lia.
    by rewrite bool_decide_eq_true_2.
  - intros H. rewrite !bool_decide_eq_false_2 by lia. done.
Qed.

Lemma sendMessage_prepends_length_instruction_witness :
  (sendMessage_start asking 1000 initial_world).2
  = Some (GenerateRequest (lit "llama3")
            (instruction_of_setting 9 ++ lit "Why is the sky blue?") false)
  /\ ((9 = 1 \/ 9 = 2 \/ 9 = 3)%Z ->
      instruction_of_setting 9 = short_instruction)
  /\ ((4 <= 9 <= 7)%Z -> instruction_of_setting 9 = medium_instruction)
  /\ ((9 = 8 \/ 9 = 9 \/ 9 = 10)%Z ->
      instruction_of_setting 9 = long_instruction).
Proof.
  apply (sendMessage_prepends_length_instruction asking 1000 initial_world
           9%Z []).
  - reflexivity.
  - lia.
  - reflexivity.
  - reflexivity.
Defined.

(** The three instructions are distinct, so the prompt tells the band. *)
Lemma instructions_distinct :
  short_instruction <> medium_instruction
  /\ medium_instruction <> long_instruction
  /\ short_instruction <> long_instruction.
Proof. repeat split; discriminate. Qed.

Lemma of_assistant_snoc (ms : list Message) m :
  role_of m = assistant -> of_assistant (ms ++ [m]) = of_assistant ms ++ [m].
Proof.
  intros Hm. unfold of_assistant. rewrite List.filter_app. simpl.
  by rewrite Hm.
Qed.

(** C7. When the generation request of a [sendMessage] call fails, the
    conversation gains one message and no more: an assistant message with
    the fixed text; and [loading] is false once the call is over. *)
Theorem sendMessage_failure_appends_error p k now p' :
  step p (GenerateRejects k now) = Some p' ->
  exists m,
    messages (st (live p')) = messages (st (live p)) ++ [m]
    /\ role_of m = assistant
    /\ content m =
       lit "Error: Failed to get response from Ollama. Make sure Ollama is running."
    /\ of_assistant (messages (st (live p')))
       = of_assistant (messages (st (live p))) ++ [m]
    /\ loading (st (live p')) = false.
Proof.
  unfold step. destruct (tasks p !! k) as [[env request| |]|]; try done.
  intros [= <-]. eexists. simpl. split; [reflexivity|].
  repeat split. by apply of_assistant_snoc.
Qed.

Lemma sendMessage_failure_appends_error_witness :
  exists m,
    messages (st (live (page_after (failed_send ++ [GenerateRejects 0 1500]))))
    = messages (st (live (page_after failed_send))) ++ [m]
    /\ role_of m = assistant
    /\ content m =
       lit "Error: Failed to get response from Ollama. Make sure Ollama is running."
    /\ of_assistant
         (messages (st (live (page_after
                                (failed_send ++ [GenerateRejects 0 1500])))))
       = of_assistant (messages (st (live (page_after failed_send)))) ++ [m]
    /\ loading (st (live (page_after (failed_send ++ [GenerateRejects 0 1500]))))
       = false.
Proof.
  apply (sendMessage_failure_appends_error (page_after failed_send) 0 1500).
  vm_compute. reflexivity.
Defined.

(** The whole call, from the click to the failure, with nothing else
    happening in between: the user's message, then the error message. *)
Lemma sendMessage_failure_conversation env now now' w w' request :
  sendMessage_start env now w = (w', Some request) ->
  messages (st (sendMessage_rejected now' w'))
  = messages (st w)
      ++ [MkMessage (toString now) user (input env);
          MkMessage (toString (now' + 1)) assistant ollama_error]
  /\ loading (st (sendMessage_rejected now' w')) = false.
Proof.
  unfold sendMessage_start.
  destruct (is_empty (trim (input env)) || is_empty (selectedModel env));
    [done|].
  intros [= <- _]. simpl. by rewrite <- app_assoc.
Qed.

End ChatFacts.

(** ** The route handler: the promise and the child's events *)

Section RoutePromise.

Import TtsRoute TtsSamples.

Implicit Types (events output : list child_event) (c : child) (r : response).

Lemma trim_app_blank (x w : jsstring) :
  blank w = true -> trim (x ++ w) = trim x.
Proof.
  intros Hw.
  destruct (blank_or_core x) as [Hb | (w1 & m & w2 & -> & H1 & H2 & Hm)].
  - rewrite !trim_blank; [done|done|]. by rewrite blank_app, Hb, Hw.
  - rewrite (trim_core w1 m w2) by done.
    rewrite <- !app_assoc. apply trim_core; [done| |done].
    by rewrite blank_app, H2, Hw.
Qed.

Lemma trim_blank_app (w x : jsstring) :
  blank w = true -> trim (w ++ x) = trim x.
Proof. intros Hw. unfold trim. by rewrite trimStart_blank_app. Qed.

Lemma listen_settled c e r :
  settled c = Some r -> settled (listen c e) = Some r.
Proof.
  intros Hc. destruct e as [d|d|code|]; simpl; try done.
  - unfold on_close.
    destruct (negb _); [|destruct (parse_last_line _)];
      unfold resolve; simpl; by rewrite Hc.
  - unfold on_error, resolve. simpl. by rewrite Hc.
Qed.

Lemma fold_listen_settled events c r :
  settled c = Some r -> settled (fold_left listen events c) = Some r.
Proof.
  revert c. induction events as [|e events IH]; intros c Hc; [done|].
  simpl. by apply IH, listen_settled.
Qed.

Lemma listen_settles c e :
  is_data e = false -> is_Some (settled (listen c e)).
Proof.
  destruct e as [d|d|code|]; try done; intros _; simpl.
  - unfold on_close.
    destruct (negb _); [|destruct (parse_last_line _)];
      unfold resolve; simpl; destruct (settled c) eqn:Hc; simpl;
      rewrite ?Hc; by eexists.
  - unfold on_error, resolve. simpl.
    destruct (settled c) eqn:Hc; simpl; rewrite ?Hc; by eexists.
Qed.

Lemma fold_listen_unsettled events c :
  settled (fold_left listen events c) = None ->
  Forall (fun e => is_data e = true) events.
Proof.
  revert c. induction events as [|e events IH]; intros c Hnone; [done|].
  simpl in Hnone. destruct (is_data e) eqn:He.
  - constructor; [done|]. by eapply IH.
  - destruct (listen_settles c e He) as [r Hr].
    by rewrite (fold_listen_settled events _ r Hr) in Hnone.
Qed.

(** The events up to the first [close] or [error]. *)
Lemma first_settling_event events :
  Forall (fun e => is_data e = true) events
  \/ exists pre e post, events = pre ++ e :: post
       /\ Forall (fun e => is_data e = true) pre /\ is_data e = false.
Proof.
  induction events as [|e events [IH | (pre & e' & post & -> & Hpre & He')]].
  - by left.
  - destruct (is_data e) eqn:He.
    + left. by constructor.
    + right. by exists [], e, events.
  - destruct (is_data e) eqn:He.
    + right. exists (e :: pre), e', post. repeat split; [|done]. by constructor.
    + right. by exists [], e, (pre ++ e' :: post).
Qed.

(** X1. The promise settles once: the response that a run of events has
    produced is not changed by anything the child does afterwards. *)
Theorem response_is_final events more r :
  respond events = Some r -> respond (events ++ more) = Some r.
Proof.
  unfold respond, run. rewrite fold_left_app. apply fold_listen_settled.
Qed.

Lemma response_is_final_witness :
  respond (exits_with (Some 0%Z) chatty_run ++ [Error; Close (Some 1%Z)])
  = Some (Response 200 result_json).
Proof.
  apply (response_is_final (exits_with (Some 0%Z) chatty_run)
           [Error; Close (Some 1%Z)]).
  vm_compute. reflexivity.
Defined.

(** X2. The endpoint answers exactly when the child emits [close] or
    [error]: as long as the child only writes, the request stays open. *)
Theorem responds_iff_close_or_error events :
  respond events = None <-> Forall (fun e => is_data e = true) events.
Proof.
  split.
  - apply fold_listen_unsettled.
  - intros H. unfold respond. by apply run_output.
Qed.

Lemma responds_iff_close_or_error_witness :
  respond chatty_run = None
  <-> Forall (fun e => is_data e = true) chatty_run.
Proof. apply (responds_iff_close_or_error chatty_run). Defined.

(** X3. When the child cannot be started, the [error] event answers 500
    with [{ error: "Failed to start TTS service" }], whatever [close] event
    follows. *)
Theorem spawn_failure_is_reported output later :
  Forall (fun e => is_data e = true) output ->
  respond (output ++ Error :: later) =
  Some (Response 500 (error_body "Failed to start TTS service")).
Proof.
  intros (_ & Hset)%run_output.
  unfold respond, run. rewrite fold_left_app. simpl.
  apply fold_listen_settled. unfold on_error, resolve. simpl.
  fold (run output). by rewrite Hset.
Qed.

Lemma spawn_failure_is_reported_witness :
  respond ([] ++ Error :: [Close (Some (-2)%Z)]) =
  Some (Response 500 (error_body "Failed to start TTS service")).
Proof.
  apply (spawn_failure_is_reported [] [Close (Some (-2)%Z)]).
  constructor.
Defined.

(** X4. Every response of the endpoint to a launched child is either what
    [JSON.stringify] writes for the value parsed from the output written
    before a [close] with code 0, with status 200, or one of three fixed
    error bodies with status 500. *)
Theorem response_is_relay_or_error events r :
  respond events = Some r ->
  (status r = 200%Z
   /\ exists pre post v,
        events = pre ++ Close (Some 0%Z) :: post
        /\ Forall (fun e => is_data e = true) pre
        /\ parse_last_line (written pre) = Some v
        /\ body r = stringified v)
  \/ (status r = 500%Z
      /\ (body r = error_body "TTS generation failed"
          \/ body r = error_body "Invalid response from TTS service"
          \/ body r = error_body "Failed to start TTS service")).
Proof.
  intros Hr.
  destruct (first_settling_event events)
    as [Hdata | (pre & e & post & -> & Hpre & He)].
  { apply run_output in Hdata as [_ Hnone]. unfold respond in Hr.
    congruence. }
  destruct (run_output pre Hpre) as (Hout & Hset).
  assert (settled (listen (run pre) e) = Some r) as Hsettle.
  { destruct (listen_settles (run pre) e He) as [r' Hr'].
    unfold respond, run in Hr. rewrite fold_left_app in Hr. simpl in Hr.
    fold (run pre) in Hr.
    rewrite (fold_listen_settled post _ r' Hr') in Hr. congruence. }
  destruct e as [d|d|code|]; try done; cbn [listen] in Hsettle.
  - unfold on_close in Hsettle. case_bool_decide as Hcode;
      cbn [negb] in Hsettle.
    + rewrite Hout in Hsettle.
      destruct (parse_last_line (written pre)) as [v|] eqn:Hparse;
        unfold resolve in Hsettle; cbn [settled console_error] in Hsettle;
        rewrite Hset in Hsettle; cbn [settled] in Hsettle;
        injection Hsettle as <-.
      * left. split; [done|]. exists pre, post, v. by rewrite Hcode.
      * right. split; [done|]. by right; left.
    + unfold resolve in Hsettle. cbn [settled console_error] in Hsettle.
      rewrite Hset in Hsettle. cbn [settled] in Hsettle.
      injection Hsettle as <-. right. split; [done|]. by left.
  - unfold on_error, resolve in Hsettle.
    cbn [settled console_error] in Hsettle.
    rewrite Hset in Hsettle. cbn [settled] in Hsettle.
    injection Hsettle as <-. right. split; [done|]. by right; right.
Qed.

Lemma response_is_relay_or_error_witness :
  (status (Response 200 (JObject [(lit "n", JNull)])) = 200%Z
   /\ exists pre post v,
        exits_with (Some 0%Z) overflow_run = pre ++ Close (Some 0%Z) :: post
        /\ Forall (fun e => is_data e = true) pre
        /\ parse_last_line (written pre) = Some v
        /\ body (Response 200 (JObject [(lit "n", JNull)])) = stringified v)
  \/ (status (Response 200 (JObject [(lit "n", JNull)])) = 500%Z
      /\ (body (Response 200 (JObject [(lit "n", JNull)]))
          = error_body "TTS generation failed"
          \/ body (Response 200 (JObject [(lit "n", JNull)]))
             = error_body "Invalid response from TTS service"
          \/ body (Response 200 (JObject [(lit "n", JNull)]))
             = error_body "Failed to start TTS service")).
Proof.
  apply (response_is_relay_or_error (exits_with (Some 0%Z) overflow_run)).
  vm_compute. reflexivity.
Defined.

(** X5. The response to a child that runs to its exit depends on the exit
    code and on the text written to standard output only: how the text was
    cut into chunks and what went to standard error make no difference. *)
Theorem response_ignores_chunking_and_stderr output1 output2 code :
  Forall (fun e => is_data e = true) output1 ->
  Forall (fun e => is_data e = true) output2 ->
  written output1 = written output2 ->
  respond (exits_with code output1) = respond (exits_with code output2).
Proof.
  intros (Hout1 & Hset1)%run_output (Hout2 & Hset2)%run_output Hsame.
  rewrite !respond_exit. unfold on_close.
  rewrite Hout1, Hout2, Hsame.
  destruct (negb _); [|destruct (parse_last_line _)];
    unfold resolve; simpl; by rewrite Hset1, Hset2.
Qed.

Lemma response_ignores_chunking_and_stderr_witness :
  respond (exits_with (Some 0%Z) chatty_run)
  = respond (exits_with (Some 0%Z) [StdoutData (written chatty_run)]).
Proof.
  apply (response_ignores_chunking_and_stderr chatty_run
           [StdoutData (written chatty_run)] (Some 0%Z)).
  - repeat constructor.
  - repeat constructor.
  - vm_compute. reflexivity.
Defined.

(** X6. After exit code 0, blank text before and after the output (leading
    or trailing spaces and empty lines) does not change the response. *)
Theorem response_ignores_blank_margins output1 output2 w1 w2 :
  Forall (fun e => is_data e = true) output1 ->
  Forall (fun e => is_data e = true) output2 ->
  blank w1 = true -> blank w2 = true ->
  written output2 = w1 ++ written output1 ++ w2 ->
  respond (exits_with (Some 0%Z) output2)
  = respond (exits_with (Some 0%Z) output1).
Proof.
  intros H1 H2 Hw1 Hw2 Hout. rewrite !respond_exit_zero by done.
  unfold parse_last_line. rewrite Hout.
  by rewrite trim_blank_app, trim_app_blank.
Qed.

Lemma response_ignores_blank_margins_witness :
  respond (exits_with (Some 0%Z)
             [StdoutData ([LF] ++ written chatty_run ++ [LF; 32%N; LF])])
  = respond (exits_with (Some 0%Z) chatty_run).
Proof.
  apply (response_ignores_blank_margins chatty_run
           [StdoutData ([LF] ++ written chatty_run ++ [LF; 32%N; LF])]
           [LF] [LF; 32%N; LF]).
  - repeat constructor.
  - repeat constructor.
  - reflexivity.
  - reflexivity.
  - vm_compute. reflexivity.
Defined.

Lemma final_nonempty_line_after_prefix (pre out : jsstring) :
  blank out = false ->
  final_nonempty_line (pre ++ LF :: out) = final_nonempty_line out.
Proof.
  intros Hb. destruct (final_nonempty_line out) as [L|] eqn:HL.
  - unfold final_nonempty_line in *.
    rewrite split_app_sep, filter_app, last_app, HL. done.
  - apply no_final_line_iff_blank in HL. congruence.
Qed.

(** X7. After exit code 0, the lines written before the output's own lines
    are ignored: putting any text and a line end in front of an output that
    is not blank does not change the response. *)
Theorem response_ignores_earlier_lines output1 output2 pre :
  Forall (fun e => is_data e = true) output1 ->
  Forall (fun e => is_data e = true) output2 ->
  blank (written output1) = false ->
  written output2 = pre ++ LF :: written output1 ->
  respond (exits_with (Some 0%Z) output2)
  = respond (exits_with (Some 0%Z) output1).
Proof.
  intros H1 H2 Hb Hout. rewrite !respond_exit_zero by done.
  destruct (final_nonempty_line (written output1)) as [L|] eqn:HL.
  - rewrite (parse_last_line_final (written output1) L HL).
    rewrite (parse_last_line_final (written output2) L); [done|].
    by rewrite Hout, final_nonempty_line_after_prefix.
  - apply no_final_line_iff_blank in HL. congruence.
Qed.

Lemma response_ignores_earlier_lines_witness :
  respond (exits_with (Some 0%Z)
             [StdoutData (lit "Traceback (ignored)");
              StdoutData (LF :: written chatty_run)])
  = respond (exits_with (Some 0%Z) chatty_run).
Proof.
  apply (response_ignores_earlier_lines chatty_run
           [StdoutData (lit "Traceback (ignored)");
            StdoutData (LF :: written chatty_run)]
           (lit "Traceback (ignored)")).
  - repeat constructor.
  - repeat constructor.
  - vm_compute. reflexivity.
  - vm_compute. reflexivity.
Defined.

(** *** Validation *)

(** X8. The handler launches the child only for a [text] that is a
    non-empty string, and then passes that string on unchanged, with the
    voice normalised by [voicePath]. *)
Theorem launch_needs_text body text voice_path :
  POST body = Launched text voice_path ->
  exists parsed s voice,
    JSON_parse body = Some parsed
    /\ get_property parsed (lit "text") = Some (Some (JString s))
    /\ s <> []
    /\ text = Some (JString s)
    /\ get_property parsed (lit "voice") = Some voice
    /\ voice_path = voicePath voice.
Proof.
  unfold POST. destruct (JSON_parse body) as [parsed|]; [|done].
  destruct (get_property parsed (lit "text")) as [t|] eqn:Ht; [|done].
  destruct (get_property parsed (lit "voice")) as [voice|] eqn:Hv; [|done].
  destruct (falsy t || negb (typeof_string t)) eqn:Hcheck; [done|].
  destruct (spawn_refuses t || spawn_refuses (Some (voicePath voice)));
    [done|].
  intros [= <- <-]. apply orb_false_iff in Hcheck as [Hfalsy Htype].
  destruct t as [[| | |s| |]|]; try done.
  exists parsed, s, voice. repeat split; try done. by intros ->.
Qed.

Lemma launch_needs_text_witness :
  exists parsed s voice,
    JSON_parse body_with_text = Some parsed
    /\ get_property parsed (lit "text") = Some (Some (JString s))
    /\ s <> []
    /\ Some (JString (lit "Hello")) = Some (JString s)
    /\ get_property parsed (lit "voice") = Some voice
    /\ JString [] = voicePath voice.
Proof.
  apply (launch_needs_text body_with_text (Some (JString (lit "Hello")))
           (JString [])).
  vm_compute. reflexivity.
Defined.

(** X9. The voice selector that reaches the script is the empty string for
    a missing, falsy or ['default'] voice and the given voice otherwise; it
    is never the string ['default'].  A number is falsy when its double is
    zero. *)
Theorem voicePath_normalises voice :
  (voice = Some (JString (lit "default")) \/ falsy voice = true ->
   voicePath voice = JString [])
  /\ (forall v, voice = Some v -> v <> JString (lit "default") ->
       falsy voice = false -> voicePath voice = v)
  /\ voicePath voice <> JString (lit "default").
Proof.
  unfold voicePath. split; [|split].
  - intros [-> | Hf]; [done|].
    destruct (strict_eq_string voice (lit "default")); [done|].
    destruct voice; by rewrite ?Hf.
  - intros v -> Hv Hf. rewrite Hf.
    destruct v as [| | |s| |]; try done. simpl.
    rewrite bool_decide_eq_false_2; [done|]. by intros ->.
  - assert (JString [] <> JString (lit "default")) as Hempty
      by (intros H; vm_compute in H; discriminate).
    destruct voice as [[|b|n|s|items|o]|]; cbn [strict_eq_string falsy];
      try done.
    + destruct b; simpl; [discriminate | exact Hempty].
    + destruct (Number_of_literal n); [exact Hempty | discriminate..].
    + case_bool_decide as Hs; [exact Hempty|].
      destruct s; [exact Hempty|].
      simpl. intros H. apply Hs. congruence.
Qed.

(** The voice [1e-400], a number whose double is zero, and the voice of a
    file name. *)
Lemma voicePath_normalises_witness :
  voicePath (Some (JNumber (lit "1e-400"))) = JString []
  /\ voicePath (Some (JNumber (lit "0.5e1"))) = JNumber (lit "0.5e1")
  /\ voicePath (Some (JString (lit "voices/en.wav")))
     = JString (lit "voices/en.wav").
Proof.
  split; [|split].
  - apply (proj1 (voicePath_normalises (Some (JNumber (lit "1e-400"))))).
    right. vm_compute. reflexivity.
  - apply (proj1 (proj2 (voicePath_normalises
                           (Some (JNumber (lit "0.5e1")))))).
    + reflexivity.
    + discriminate.
    + vm_compute. reflexivity.
  - apply (proj1 (proj2 (voicePath_normalises
                           (Some (JString (lit "voices/en.wav")))))).
    + reflexivity.
    + intros H. vm_compute in H. discriminate.
    + vm_compute. reflexivity.
Defined.

End RoutePromise.

(** ** The chat controller: each handler on its own *)

Section HandlerFacts.

Import Chatbot ChatSamples Session.

Implicit Types (w : world) (env : state) (p : page).

(** X10. Stopping a message twice is the same as stopping it once. *)
Theorem stopTTS_idempotent messageId w :
  stopTTS messageId (stopTTS messageId w) = stopTTS messageId w.
Proof.
  unfold stopTTS at 2 3.
  destruct (audioRefs w !! messageId) as [h|] eqn:Href.
  - unfold stopTTS. simpl. rewrite Href. unfold setPlayingAudio, with_state,
      on_audio. simpl. f_equal.
    apply list_eq. intros i. destruct (decide (i = h)) as [->|Hne].
    + rewrite !list_lookup_alter_eq. by destruct (audios w !! h).
    + by rewrite !list_lookup_alter_ne.
  - unfold stopTTS. by rewrite Href.
Qed.

(** What the end of a [generateTTS] call leaves alone. *)
Lemma generateTTS_resolved_frame env messageId data outcome w :
  let w' := generateTTS_resolved env messageId data outcome w in
  messages (st w') = messages (st w)
  /\ input (st w') = input (st w)
  /\ loading (st w') = loading (st w)
  /\ selectedModel (st w') = selectedModel (st w)
  /\ selectedVoice (st w') = selectedVoice (st w)
  /\ autoPlay (st w') = autoPlay (st w)
  /\ responseLength (st w') = responseLength (st w).
Proof.
  unfold generateTTS_resolved, start_playback, stopTTS.
  repeat case_match; simpl; done.
Qed.

(** X11. However a [generateTTS] call ends (audio played, play rejected,
    bad base64, failure body, failed request), the "generating" marker is
    cleared and the conversation, the input and the loading flag are as they
    were. *)
Theorem generateTTS_end_clears_generating env messageId data outcome w :
  let w' := generateTTS_resolved env messageId data outcome w in
  let w'' := generateTTS_rejected w in
  generatingAudio (st w') = None
  /\ generatingAudio (st w'') = None
  /\ messages (st w') = messages (st w)
  /\ messages (st w'') = messages (st w)
  /\ input (st w') = input (st w)
  /\ input (st w'') = input (st w)
  /\ loading (st w') = loading (st w)
  /\ loading (st w'') = loading (st w)
  /\ audios w'' = audios w
  /\ playingAudio (st w'') = playingAudio (st w).
Proof.
  destruct (generateTTS_resolved_frame env messageId data outcome w)
    as (? & ? & ? & _).
  unfold generateTTS_resolved. simpl. repeat split; done.
Qed.

(** X12. A body without [success] or without audio raises one alert, with
    the error of the body or ["Unknown error"], and starts nothing: no
    element is created or registered and the playing pointer stays. *)
Theorem generateTTS_failure_body_alerts env messageId data outcome w :
  success data && truthy (data_audio data) = false ->
  let w' := generateTTS_resolved env messageId data outcome w in
  alerts w' =
    alerts w ++ [lit "Text-to-speech failed: "
                   ++ (if truthy (data_error data)
                       then default [] (data_error data)
                       else lit "Unknown error")]
  /\ audios w' = audios w
  /\ audioRefs w' = audioRefs w
  /\ playingAudio (st w') = playingAudio (st w).
Proof. intros Hfail. unfold generateTTS_resolved. by rewrite Hfail. Qed.

Lemma generateTTS_failure_body_alerts_witness :
  let w' := generateTTS_resolved initial_state first_answer
              (TtsData false None (Some (lit "TTS generation failed")))
              Plays initial_world in
  alerts w' =
    alerts initial_world
      ++ [lit "Text-to-speech failed: "
            ++ (if truthy (Some (lit "TTS generation failed"))
                then default [] (Some (lit "TTS generation failed"))
                else lit "Unknown error")]
  /\ audios w' = audios initial_world
  /\ audioRefs w' = audioRefs initial_world
  /\ playingAudio (st w') = playingAudio (st initial_world).
Proof.
  apply (generateTTS_failure_body_alerts initial_state first_answer
           (TtsData false None (Some (lit "TTS generation failed")))
           Plays initial_world).
  reflexivity.
Defined.

(** X13. Audio that is not valid base64 fails silently: no alert is raised,
    no element is created or registered, the playing pointer stays; only
    the console is told. *)
Theorem generateTTS_bad_base64_is_silent env messageId data outcome w :
  success data = true -> truthy (data_audio data) = true ->
  atob (default [] (data_audio data)) = None ->
  let w' := generateTTS_resolved env messageId data outcome w in
  alerts w' = alerts w
  /\ audios w' = audios w
  /\ audioRefs w' = audioRefs w
  /\ playingAudio (st w') = playingAudio (st w)
  /\ errors w' = errors w ++ ["Failed to generate TTS:"%string].
Proof.
  intros Hs Ha Hbad. unfold generateTTS_resolved.
  by rewrite Hs, Ha, Hbad.
Qed.

Lemma generateTTS_bad_base64_is_silent_witness :
  let w' := generateTTS_resolved initial_state first_answer
              (TtsData true (Some (lit "QUJD=")) None) Plays initial_world in
  alerts w' = alerts initial_world
  /\ audios w' = audios initial_world
  /\ audioRefs w' = audioRefs initial_world
  /\ playingAudio (st w') = playingAudio (st initial_world)
  /\ errors w' = errors initial_world ++ ["Failed to generate TTS:"%string].
Proof.
  apply (generateTTS_bad_base64_is_silent initial_state first_answer
           (TtsData true (Some (lit "QUJD=")) None) Plays initial_world).
  - reflexivity.
  - reflexivity.
  - vm_compute. reflexivity.
Defined.

(** The state of the registry after the new element has been registered
    and the message of the render has been stopped. *)
Lemma generateTTS_registers env messageId data outcome w bytes :
  success data = true -> truthy (data_audio data) = true ->
  atob (default [] (data_audio data)) = Some bytes ->
  let w' := generateTTS_resolved env messageId data outcome w in
  audioRefs w' = <[messageId := length (audios w)]> (audioRefs w)
  /\ length (audios w') = S (length (audios w))
  /\ exists a, audios w' !! length (audios w) = Some a /\ src a = bytes
               /\ currentTime a = 0%N
               /\ paused a = match outcome with
                             | Plays | Rejects RetryPlays => false
                             | Rejects _ => true
                             end.
Proof.
  intros Hs Ha Hbytes. unfold generateTTS_resolved.
  rewrite Hs, Ha, Hbytes. simpl.
  set (n := length (audios w)).
  assert (forall w0, audioRefs w0 = <[messageId:=n]> (audioRefs w) ->
            audios w0 !! n = Some (Audio bytes true 0) ->
            length (audios w0) = S n ->
            let w1 := start_playback n outcome
                        (setPlayingAudio (Some messageId) w0) in
            audioRefs w1 = <[messageId:=n]> (audioRefs w)
            /\ length (audios w1) = S n
            /\ exists a, audios w1 !! n = Some a /\ src a = bytes
                 /\ currentTime a = 0%N
                 /\ paused a = match outcome with
                               | Plays | Rejects RetryPlays => false
                               | Rejects _ => true
                               end) as Hplay.
  { intros w0 Href Hn Hlen. destruct outcome as [|[]]; simpl;
      rewrite ?length_alter, ?list_lookup_alter_eq, Hn; simpl;
        repeat split; try done; by eexists. }
  assert (audios (register_audio messageId bytes w) !! n
          = Some (Audio bytes true 0)) as Hnew.
  { simpl. by rewrite lookup_app_r, Nat.sub_diag by done. }
  assert (length (audios (register_audio messageId bytes w)) = S n) as Hlen.
  { simpl. rewrite length_app. simpl. unfold n. lia. }
  destruct (playingAudio env) as [playing|]; [|by apply Hplay].
  destruct (negb (is_empty playing) && negb (bool_decide (playing = messageId)))
    eqn:Hstop; [|by apply Hplay].
  apply andb_true_iff in Hstop as [_ Hother].
  apply negb_true_iff, bool_decide_eq_false in Hother.
  unfold stopTTS.
  destruct (audioRefs (register_audio messageId bytes w) !! playing)
    as [h|] eqn:Href; [|by apply Hplay].
  simpl in Href. rewrite lookup_insert_ne in Href by done.
  apply Hplay; simpl.
  - done.
  - destruct (decide (h = n)) as [->|Hne].
    + rewrite !list_lookup_alter_eq.
      by rewrite lookup_app_r, Nat.sub_diag by done.
    + rewrite !list_lookup_alter_ne by done.
      by rewrite lookup_app_r, Nat.sub_diag by done.
  - rewrite !length_alter, length_app. simpl. unfold n. lia.
Qed.

(** X14. When the audio arrives and starts, the message gets a fresh
    element holding the decoded bytes, paused no longer and at position 0;
    the registry points the message at it, replacing any earlier element of
    the same message, and the playing pointer names the message. *)
Theorem generateTTS_success_plays env messageId data w bytes :
  success data = true -> truthy (data_audio data) = true ->
  atob (default [] (data_audio data)) = Some bytes ->
  let w' := generateTTS_resolved env messageId data Plays w in
  audioRefs w' !! messageId = Some (length (audios w))
  /\ audio_of w' messageId = Some (Audio bytes false 0)
  /\ playingAudio (st w') = Some messageId
  /\ (forall other, other <> messageId ->
        audioRefs w' !! other = audioRefs w !! other).
Proof.
  intros Hs Ha Hbytes w'.
  destruct (generateTTS_registers env messageId data Plays w bytes Hs Ha Hbytes)
    as (Href & _ & a & Hnew & Hsrc & Htime & Hpaused).
  fold w' in Href, Hnew. repeat split.
  - by rewrite Href, lookup_insert_eq.
  - unfold audio_of. rewrite Href, lookup_insert_eq, Hnew.
    destruct a; simpl in *; by subst.
  - unfold w', generateTTS_resolved. rewrite Hs, Ha, Hbytes. done.
  - intros other Hother. by rewrite Href, lookup_insert_ne.
Qed.

Lemma generateTTS_success_plays_witness :
  let w' := generateTTS_resolved initial_state first_answer spoken Plays
              initial_world in
  audioRefs w' !! first_answer = Some (length (audios initial_world))
  /\ audio_of w' first_answer = Some (Audio [65; 66; 67]%N false 0)
  /\ playingAudio (st w') = Some first_answer
  /\ (forall other, other <> first_answer ->
        audioRefs w' !! other = audioRefs initial_world !! other).
Proof.
  apply (generateTTS_success_plays initial_state first_answer spoken
           initial_world [65; 66; 67]%N).
  - reflexivity.
  - reflexivity.
  - vm_compute. reflexivity.
Defined.

(** X15. When the browser rejects [audio.play()], the playing pointer ends
    up cleared whatever the recovery attempt does; the element stays
    registered, and it is sounding only if the retry after
    [context.resume()] started it. *)
Theorem generateTTS_play_rejected env messageId data r w bytes :
  success data = true -> truthy (data_audio data) = true ->
  atob (default [] (data_audio data)) = Some bytes ->
  let w' := generateTTS_resolved env messageId data (Rejects r) w in
  playingAudio (st w') = None
  /\ audio_of w' messageId
     = Some (Audio bytes (match r with RetryPlays => false | _ => true end) 0).
Proof.
  intros Hs Ha Hbytes w'.
  destruct (generateTTS_registers env messageId data (Rejects r) w bytes
              Hs Ha Hbytes)
    as (Href & _ & a & Hnew & Hsrc & Htime & Hpaused).
  fold w' in Href, Hnew. split.
  - unfold w', generateTTS_resolved. rewrite Hs, Ha, Hbytes.
    by destruct r.
  - unfold audio_of. rewrite Href, lookup_insert_eq, Hnew.
    destruct a, r; simpl in *; by subst.
Qed.

Lemma generateTTS_play_rejected_witness :
  let w' := generateTTS_resolved initial_state first_answer spoken
              (Rejects RetryPlays) initial_world in
  playingAudio (st w') = None
  /\ audio_of w' first_answer
     = Some (Audio [65; 66; 67]%N
               (match RetryPlays with RetryPlays => false | _ => true end) 0).
Proof.
  apply (generateTTS_play_rejected initial_state first_answer spoken
           RetryPlays initial_world [65; 66; 67]%N).
  - reflexivity.
  - reflexivity.
  - vm_compute. reflexivity.
Defined.

(** X16. [sendMessage] issues a request exactly when the input is not blank
    and a model is selected.  It then appends the user's message with the
    input as typed, clears the input and raises the loading flag; otherwise
    it changes nothing. *)
Theorem sendMessage_start_effect env now w :
  let r := sendMessage_start env now w in
  (is_Some r.2 <-> blank (input env) = false /\ selectedModel env <> [])
  /\ (r.2 = None -> r.1 = w)
  /\ (is_Some r.2 ->
      messages (st r.1)
      = messages (st w) ++ [MkMessage (toString now) user (input env)]
      /\ input (st r.1) = []
      /\ loading (st r.1) = true
      /\ audios r.1 = audios w
      /\ playingAudio (st r.1) = playingAudio (st w)).
Proof.
  unfold sendMessage_start. rewrite is_empty_trim_blank.
  destruct (blank (input env)); simpl.
  - repeat split; try done; by intros [? ?].
  - destruct (selectedModel env) as [|c model]; simpl.
    + repeat split; try done; by intros [? ?].
    + repeat split; try done; by eexists.
Qed.

Lemma sendMessage_start_effect_witness :
  let r := sendMessage_start asking 1000 initial_world in
  (is_Some r.2 <-> blank (input asking) = false /\ selectedModel asking <> [])
  /\ (r.2 = None -> r.1 = initial_world)
  /\ (is_Some r.2 ->
      messages (st r.1)
      = messages (st initial_world)
          ++ [MkMessage (toString 1000) user (input asking)]
      /\ input (st r.1) = []
      /\ loading (st r.1) = true
      /\ audios r.1 = audios initial_world
      /\ playingAudio (st r.1) = playingAudio (st initial_world)).
Proof. apply (sendMessage_start_effect asking 1000 initial_world). Defined.

(** X17. When a generation request succeeds, the conversation gains the
    answer as one assistant message and loading ends; speech for that
    message is scheduled exactly if auto-play was on in the render that sent
    the request, whatever the setting is when the answer arrives. *)
Theorem sendMessage_success_appends_answer p k now response p' :
  step p (GenerateResolves k now response) = Some p' ->
  exists env request,
    tasks p !! k = Some (AwaitGenerate env request)
    /\ messages (st (live p'))
       = messages (st (live p))
           ++ [MkMessage (toString (now + 1)) assistant response]
    /\ loading (st (live p')) = false
    /\ tasks p'
       = delete k (tasks p)
           ++ (if autoPlay env
               then [AwaitTimer (Timer env response (toString (now + 1)))]
               else [])
    /\ audios (live p') = audios (live p)
    /\ playingAudio (st (live p')) = playingAudio (st (live p)).
Proof.
  unfold step. destruct (tasks p !! k) as [[env request| |]|]; try done.
  intros [= <-]. exists env, request. unfold add_task, sendMessage_resolved.
  simpl. destruct (autoPlay env); simpl; by rewrite ?app_nil_r.
Qed.

Lemma sendMessage_success_appends_answer_witness :
  exists env request,
    tasks (page_after failed_send) !! 0%nat = Some (AwaitGenerate env request)
    /\ messages (st (live (page_after
                            (failed_send
                               ++ [GenerateResolves 0 2000 (lit "hello")]))))
       = messages (st (live (page_after failed_send)))
           ++ [MkMessage (toString (2000 + 1)) assistant (lit "hello")]
    /\ loading (st (live (page_after
                            (failed_send
                               ++ [GenerateResolves 0 2000 (lit "hello")]))))
       = false
    /\ tasks (page_after
                (failed_send ++ [GenerateResolves 0 2000 (lit "hello")]))
       = delete 0%nat (tasks (page_after failed_send))
           ++ (if autoPlay env
               then [AwaitTimer (Timer env (lit "hello") (toString (2000 + 1)))]
               else [])
    /\ audios (live (page_after
                       (failed_send
                          ++ [GenerateResolves 0 2000 (lit "hello")])))
       = audios (live (page_after failed_send))
    /\ playingAudio (st (live (page_after
                                 (failed_send
                                    ++ [GenerateResolves 0 2000 (lit "hello")]))))
       = playingAudio (st (live (page_after failed_send))).
Proof.
  apply (sendMessage_success_appends_answer (page_after failed_send) 0 2000
           (lit "hello")).
  vm_compute. reflexivity.
Defined.

End HandlerFacts.

(** ** The chat controller: the page over time *)

Section PageFacts.

Import Chatbot ChatSamples Session.

Implicit Types (w : world) (env : state) (p : page).

Lemma steps_app p es1 es2 :
  steps p (es1 ++ es2) = steps p es1 ≫= fun p' => steps p' es2.
Proof.
  revert p. induction es1 as [|e es1 IH]; intros p; simpl; [done|].
  destruct (step p e); simpl; [apply IH|done].
Qed.

Lemma reachable_ind (I : page -> Prop) :
  I initial_page ->
  (forall p e p', reachable p -> I p -> step p e = Some p' -> I p') ->
  forall p, reachable p -> I p.
Proof.
  intros Hinit Hstep p [es Hes]. revert p Hes.
  induction es as [|e es IH] using rev_ind; intros p Hes.
  - by injection Hes as <-.
  - rewrite steps_app in Hes.
    destruct (steps initial_page es) as [q|] eqn:Hq; [|done].
    simpl in Hes. destruct (step q e) as [q'|] eqn:Hq'; [|done].
    injection Hes as <-. eapply Hstep; [by exists es|by apply IH|done].
Qed.

Lemma filter_snoc {A} (f : A -> bool) l x :
  List.filter f (l ++ [x]) = List.filter f l ++ (if f x then [x] else []).
Proof. rewrite List.filter_app. simpl. by destruct (f x). Qed.

Lemma filter_delete_length {A} (f : A -> bool) (l : list A) k x :
  l !! k = Some x ->
  length (List.filter f l)
  = (length (List.filter f (delete k l)) + (if f x then 1 else 0))%nat.
Proof.
  revert k. induction l as [|y l IH]; intros [|k] Hk; simplify_eq/=.
  - destruct (f x); simpl; lia.
  - specialize (IH k Hk). destruct (f y); simpl; lia.
Qed.

Lemma turns_snoc next ms m r :
  turns next ms = Some r -> has_role r m = true ->
  turns next (ms ++ [m]) = Some (other r).
Proof.
  revert next. induction ms as [|m' ms IH]; intros next; simpl.
  - intros [= ->] ->. done.
  - destruct (has_role next m'); [|done]. apply IH.
Qed.

Ltac open_step H :=
  unfold step, add_task, sendMessage_start, generateTTS_start,
    sendMessage_resolved, sendMessage_rejected, generateTTS_rejected,
    audio_onended, audio_onerror, stopTTS in H;
  repeat case_match; simplify_eq.

Lemma step_in_turn p e p' : in_turn p -> step p e = Some p' -> in_turn p'.
Proof.
  unfold in_turn, pending_generations. intros [Hpend Hturns] Hstep.
  destruct e.
  11: { unfold step in Hstep.
    destruct (tasks p !! k) as [[| env messageId request |]|] eqn:Hk;
      simplify_eq.
    destruct (generateTTS_resolved_frame env messageId data outcome (live p))
      as (Hm & _ & Hl & _).
    cbn [live tasks]. rewrite Hm, Hl.
    pose proof (filter_delete_length is_generate _ _ _ Hk) as Hlen.
    simpl in Hlen. split; [lia|done]. }
  all: open_step Hstep; simpl in *.
  all: try congruence.
  all: rewrite ?filter_snoc; simpl; rewrite ?app_nil_r.
  all: repeat match goal with
       | H : _ !! _ = Some _ |- _ =>
           pose proof (filter_delete_length is_generate _ _ _ H); clear H
       end; simpl in *.
  all: rewrite ?length_app; simpl; split; [lia|].
  all: try done.
  all: try (by apply (turns_snoc user _ _ assistant)).
  all: try (by apply (turns_snoc user _ _ user)).
  all: exfalso; lia.
Qed.

(** *** The registry *)

Lemma start_playback_pointer n outcome w messageId :
  playingAudio (st (start_playback n outcome
                      (setPlayingAudio (Some messageId) w)))
  = match outcome with Plays => Some messageId | Rejects _ => None end.
Proof. by destruct outcome as [|[]]. Qed.

Lemma generateTTS_resolved_registry env messageId data outcome w :
  registry_ok w ->
  registry_ok (generateTTS_resolved env messageId data outcome w).
Proof.
  intros [Hrefs Hptr].
  destruct (success data && truthy (data_audio data)) eqn:Hok.
  2:{ unfold generateTTS_resolved. rewrite Hok.
      split; [apply Hrefs | apply Hptr]. }
  apply andb_true_iff in Hok as [Hs Ha].
  destruct (atob (default [] (data_audio data))) as [bytes|] eqn:Hbytes.
  2:{ unfold generateTTS_resolved. rewrite Hs, Ha, Hbytes.
      split; [apply Hrefs | apply Hptr]. }
  destruct (generateTTS_registers env messageId data outcome w bytes
              Hs Ha Hbytes) as (Hr & Hlen & _).
  split.
  - intros i h. rewrite Hr, Hlen. intros Hi.
    apply lookup_insert_Some in Hi as [[_ <-]|[_ Hi]]; [lia|].
    apply Hrefs in Hi. lia.
  - intros i Hi. rewrite Hr.
    assert (i = messageId) as ->; [|by rewrite lookup_insert_eq].
    unfold generateTTS_resolved in Hi. rewrite Hs, Ha, Hbytes in Hi.
    cbn [andb] in Hi.
    change (st (setGeneratingAudio None ?x)) with
      (st (setGeneratingAudio None x)) in Hi.
    simpl in Hi. rewrite start_playback_pointer in Hi.
    destruct outcome; congruence.
Qed.

Lemma step_registry p e p' :
  registry_ok (live p) -> step p e = Some p' -> registry_ok (live p').
Proof.
  intros Hinv Hstep. destruct e.
  11: { unfold step in Hstep.
        destruct (tasks p !! k) as [[| env messageId request |]|];
          simplify_eq.
        by apply generateTTS_resolved_registry. }
  all: destruct Hinv as [Hrefs Hptr]; open_step Hstep; simpl in *.
  all: split; simpl; rewrite ?length_alter; try done; eauto.
Qed.


(** *** What is spoken *)

Lemma is_answer_app ms new messageId text :
  is_answer ms messageId text -> is_answer (ms ++ new) messageId text.
Proof.
  intros (m & Hm & ?). exists m. split; [|done].
  apply elem_of_app. by left.
Qed.

Lemma task_ok_app ms new t : task_ok ms t -> task_ok (ms ++ new) t.
Proof.
  destruct t as [| env messageId request | t]; simpl; [done| |].
  - intros [? ?]. split; [by apply is_answer_app|done].
  - apply is_answer_app.
Qed.

Lemma step_tasks_ok p e p' :
  Forall (task_ok (messages (st (live p)))) (tasks p) ->
  step p e = Some p' ->
  Forall (task_ok (messages (st (live p')))) (tasks p').
Proof.
  intros Hinv Hstep. destruct e.
  11: { unfold step in Hstep.
        destruct (tasks p !! k) as [[| env messageId request |]|];
          simplify_eq.
        destruct (generateTTS_resolved_frame env messageId data outcome
                    (live p)) as (Hm & _).
        cbn [live tasks]. rewrite Hm. by apply Forall_delete. }
  all: open_step Hstep; simpl in *.
  all: rewrite ?Forall_app.
  all: repeat split.
  all: try done.
  all: try (by apply Forall_delete).
  all: try (eapply Forall_impl;
            [first [by apply Forall_delete | eassumption]
            |intros ?; apply task_ok_app]).
  all: repeat constructor; simplify_eq/=.
  all: rewrite <- ?is_empty_trim_blank; try done.
  all: try (eexists; split; [by eapply list_elem_of_lookup_2|done]).
  all: try (eexists; split;
            [apply elem_of_app; right; by apply list_elem_of_singleton
            |done]).
  all: match goal with
       | H : tasks _ !! _ = Some (AwaitTimer _) |- _ =>
           by apply (Forall_lookup_1 _ _ _ _ Hinv H)
       end.
Qed.

(** *** Nothing is taken back *)

Lemma audio_kept_refl w : audio_kept w w.
Proof. intros h a Ha. by exists a. Qed.

Lemma audio_kept_trans w1 w2 w3 :
  audio_kept w1 w2 -> audio_kept w2 w3 -> audio_kept w1 w3.
Proof.
  intros H12 H23 h a Ha. destruct (H12 h a Ha) as (a' & Ha' & Hsrc).
  destruct (H23 h a' Ha') as (a'' & Ha'' & Hsrc'). exists a''.
  split; [done|congruence].
Qed.

Lemma audio_kept_same w w' : audios w' = audios w -> audio_kept w w'.
Proof. intros Heq h a Ha. exists a. by rewrite Heq. Qed.

Lemma audio_kept_on_audio h f w :
  (forall a, src (f a) = src a) -> audio_kept w (on_audio h f w).
Proof.
  intros Hf i a Ha. simpl. destruct (decide (h = i)) as [->|Hne].
  - exists (f a). by rewrite list_lookup_alter_eq, Ha.
  - exists a. by rewrite list_lookup_alter_ne.
Qed.

Lemma audio_kept_register messageId bytes w :
  audio_kept w (register_audio messageId bytes w).
Proof.
  intros h a Ha. exists a. split; [|done]. simpl.
  rewrite lookup_app_l; [done|]. by eapply lookup_lt_Some.
Qed.

Lemma audio_kept_stopTTS messageId w : audio_kept w (stopTTS messageId w).
Proof.
  unfold stopTTS. destruct (audioRefs w !! messageId) as [h|];
    [|apply audio_kept_refl].
  eapply audio_kept_trans; [apply (audio_kept_on_audio h pause); done|].
  eapply audio_kept_trans; [apply (audio_kept_on_audio h rewind); done|].
  by apply audio_kept_same.
Qed.

Lemma audio_kept_start_playback n outcome w :
  audio_kept w (start_playback n outcome w).
Proof.
  destruct outcome as [|[]]; simpl;
    first [apply (audio_kept_on_audio n play); done
          | by apply audio_kept_same
          | idtac].
  eapply audio_kept_trans;
    [|apply (audio_kept_on_audio n play); done]. by apply audio_kept_same.
Qed.

Lemma audio_kept_generateTTS_resolved env messageId data outcome w :
  audio_kept w (generateTTS_resolved env messageId data outcome w).
Proof.
  unfold generateTTS_resolved.
  eapply audio_kept_trans; [|by apply audio_kept_same].
  destruct (success data && truthy (data_audio data));
    [|by apply audio_kept_same].
  destruct (atob _) as [bytes|]; [|by apply audio_kept_same].
  eapply audio_kept_trans; [|apply audio_kept_start_playback].
  eapply audio_kept_trans; [|by apply audio_kept_same].
  pose proof (audio_kept_register messageId bytes w) as Hreg.
  destruct (playingAudio env) as [playing|]; [|done].
  destruct (_ && _); [|done].
  eapply audio_kept_trans; [exact Hreg|apply audio_kept_stopTTS].
Qed.

Lemma step_keeps p e p' :
  step p e = Some p' ->
  messages (st (live p)) `prefix_of` messages (st (live p'))
  /\ audio_kept (live p) (live p').
Proof.
  intros Hstep. destruct e.
  11: { unfold step in Hstep.
        destruct (tasks p !! k) as [[| env messageId request |]|];
          simplify_eq.
        destruct (generateTTS_resolved_frame env messageId data outcome
                    (live p)) as (Hm & _).
        cbn [live]. rewrite Hm. split; [done|].
        apply audio_kept_generateTTS_resolved. }
  all: open_step Hstep; simpl in *.
  all: split; [first [done | by apply prefix_app_r]|].
  all: try (by apply audio_kept_same).
  all: repeat match goal with
       | |- audio_kept _ (setPlayingAudio ?v ?x) =>
           apply (audio_kept_trans _ x); [|by apply audio_kept_same]
       | |- audio_kept _ (on_audio ?h ?f ?x) =>
           apply (audio_kept_trans _ x); [|by apply audio_kept_on_audio]
       | |- audio_kept ?w ?w => apply audio_kept_refl
       end.
Qed.

(** *** The cleanup of the unmount effect *)

Lemma pause_all_lookup (hs : list nat) w i :
  audios (foldr (fun h w => on_audio h pause w) w hs) !! i
  = (if decide (i ∈ hs) then pause <$> audios w !! i else audios w !! i).
Proof.
  induction hs as [|h hs IH]; [done|]. simpl.
  destruct (decide (h = i)) as [->|Hne].
  - rewrite list_lookup_alter_eq, IH.
    destruct (decide (i ∈ i :: hs)) as [_|Hn]; [|exfalso; apply Hn; by left].
    destruct (decide (i ∈ hs)); [by destruct (audios w !! i)|done].
  - rewrite list_lookup_alter_ne, IH by done.
    destruct (decide (i ∈ hs)), (decide (i ∈ h :: hs)) as [Hin|Hout];
      try done.
    + exfalso. apply Hout. by right.
    + apply elem_of_cons in Hin as [?|?]; congruence.
Qed.

Lemma pause_all_frame (hs : list nat) w :
  st (foldr (fun h w => on_audio h pause w) w hs) = st w
  /\ audioRefs (foldr (fun h w => on_audio h pause w) w hs) = audioRefs w.
Proof. induction hs as [|h hs [IH1 IH2]]; [done|]. simpl. by split. Qed.

Lemma registered_handle w h :
  h ∈ (map_to_list (audioRefs w)).*2
  <-> exists messageId, audioRefs w !! messageId = Some h.
Proof.
  rewrite list_elem_of_fmap. split.
  - intros ([messageId h'] & -> & Hin%elem_of_map_to_list). by exists messageId.
  - intros (messageId & Hm). exists (messageId, h). split; [done|].
    by apply elem_of_map_to_list.
Qed.

(** X24. Leaving the page pauses the audio element of every message in the
    registry, without rewinding it; an element that the registry no longer
    holds (the earlier element of a message whose speech was generated
    again) is left as it is, and the React state is not touched. *)
Theorem cleanup_pauses_registered w :
  (forall messageId, audio_of (cleanup w) messageId
                     = pause <$> audio_of w messageId)
  /\ (forall h, (forall messageId, audioRefs w !! messageId <> Some h) ->
        audios (cleanup w) !! h = audios w !! h)
  /\ st (cleanup w) = st w.
Proof.
  unfold cleanup. destruct (pause_all_frame
    ((map_to_list (audioRefs w)).*2) w) as [Hst Href]. repeat split.
  - intros messageId. unfold audio_of. rewrite Href.
    destruct (audioRefs w !! messageId) as [h|] eqn:Hh; [|done].
    rewrite pause_all_lookup, decide_True; [done|].
    apply registered_handle. by exists messageId.
  - intros h Hfree. rewrite pause_all_lookup, decide_False; [done|].
    intros (messageId & Hm)%registered_handle. by apply (Hfree messageId).
  - done.
Qed.


Lemma cleanup_pauses_registered_witness :
  (forall messageId,
     audio_of (cleanup (live (page_after overlapping_speakers))) messageId
     = pause <$> audio_of (live (page_after overlapping_speakers)) messageId)
  /\ (forall h,
        (forall messageId,
           audioRefs (live (page_after overlapping_speakers)) !! messageId
           <> Some h) ->
        audios (cleanup (live (page_after overlapping_speakers))) !! h
        = audios (live (page_after overlapping_speakers)) !! h)
  /\ st (cleanup (live (page_after overlapping_speakers)))
     = st (live (page_after overlapping_speakers)).
Proof.
  apply (cleanup_pauses_registered (live (page_after overlapping_speakers))).
Defined.

(** *** What holds on every page a session reaches *)

Lemma reachable_in_turn p : reachable p -> in_turn p.
Proof.
  apply reachable_ind; [done|]. intros q e q' _. apply step_in_turn.
Qed.

Lemma reachable_registry_ok p : reachable p -> registry_ok (live p).
Proof.
  apply (reachable_ind (fun p => registry_ok (live p))).
  - split; [|done]. intros messageId h Hh. simpl in Hh.
    by rewrite lookup_empty in Hh.
  - intros q e q' _. apply step_registry.
Qed.

Lemma reachable_tasks_ok p :
  reachable p -> Forall (task_ok (messages (st (live p)))) (tasks p).
Proof.
  apply (reachable_ind
           (fun p => Forall (task_ok (messages (st (live p)))) (tasks p)));
    [done|].
  intros q e q' _. apply step_tasks_ok.
Qed.

(** X18. One generation request at most is in flight, and exactly while
    the page shows that it is loading. *)
Theorem one_generation_at_a_time p :
  reachable p ->
  length (pending_generations p)
  = (if loading (st (live p)) then 1 else 0)%nat.
Proof. by intros [? _]%reachable_in_turn. Qed.

Lemma one_generation_at_a_time_witness :
  length (pending_generations (page_after failed_send))
  = (if loading (st (live (page_after failed_send))) then 1 else 0)%nat.
Proof.
  apply (one_generation_at_a_time (page_after failed_send)).
  exists failed_send. vm_compute. reflexivity.
Defined.

(** X19. The conversation takes turns: it starts with the user, user and
    assistant messages alternate, and it is the assistant's turn exactly
    while the page is loading. *)
Theorem conversation_takes_turns p :
  reachable p ->
  turns user (messages (st (live p)))
  = Some (if loading (st (live p)) then assistant else user).
Proof. by intros [_ ?]%reachable_in_turn. Qed.

Lemma conversation_takes_turns_witness :
  turns user (messages (st (live (page_after overlapping_speakers))))
  = Some (if loading (st (live (page_after overlapping_speakers)))
          then assistant else user).
Proof.
  apply (conversation_takes_turns (page_after overlapping_speakers)).
  exists overlapping_speakers. vm_compute. reflexivity.
Defined.

(** X20. The registry never dangles: every message it holds has its audio
    element, and the message that the playing pointer names is in the
    registry. *)
Theorem playing_message_has_audio p :
  reachable p ->
  (forall messageId, is_Some (audioRefs (live p) !! messageId) ->
     is_Some (audio_of (live p) messageId))
  /\ (forall messageId, playingAudio (st (live p)) = Some messageId ->
        is_Some (audio_of (live p) messageId)).
Proof.
  intros [Hrefs Hptr]%reachable_registry_ok.
  assert (forall messageId, is_Some (audioRefs (live p) !! messageId) ->
            is_Some (audio_of (live p) messageId)) as Hfirst.
  { intros messageId [h Hh]. unfold audio_of. rewrite Hh.
    apply lookup_lt_is_Some. by eapply Hrefs. }
  split; [done|]. intros messageId Hplaying. by apply Hfirst, Hptr.
Qed.

Lemma playing_message_has_audio_witness :
  (forall messageId,
     is_Some (audioRefs (live (page_after overlapping_speakers)) !! messageId)
     -> is_Some (audio_of (live (page_after overlapping_speakers)) messageId))
  /\ (forall messageId,
        playingAudio (st (live (page_after overlapping_speakers)))
        = Some messageId ->
        is_Some (audio_of (live (page_after overlapping_speakers)) messageId)).
Proof.
  apply (playing_message_has_audio (page_after overlapping_speakers)).
  exists overlapping_speakers. vm_compute. reflexivity.
Defined.

(** X21. Clicking the speaker of the message that is playing always stops
    it: its element ends up paused at position 0, no message is playing any
    more, and no request is sent. *)
Theorem speaker_stops_playing_message p index m p' :
  reachable p ->
  messages (st (live p)) !! index = Some m ->
  playingAudio (st (live p)) = Some (id m) ->
  step p (ClickSpeaker index) = Some p' ->
  playingAudio (st (live p')) = None
  /\ tasks p' = tasks p
  /\ exists a, audio_of (live p) (id m) = Some a
       /\ audio_of (live p') (id m) = Some (Audio (src a) true 0).
Proof.
  intros Hreach Hm Hplaying Hstep.
  destruct (reachable_registry_ok p Hreach) as [Hrefs Hptr].
  destruct (Hptr (id m) Hplaying) as [h Hh].
  destruct (lookup_lt_is_Some_2 (audios (live p)) h (Hrefs _ _ Hh))
    as [a Ha].
  unfold step in Hstep. rewrite Hm in Hstep.
  destruct (role_of m); [done|].
  destruct (_ || _); [done|].
  rewrite bool_decide_eq_true_2 in Hstep by done. injection Hstep as <-.
  unfold stopTTS, audio_of. cbn [live tasks]. rewrite Hh. simpl.
  rewrite Hh. repeat split. exists a. split; [done|].
  by rewrite !list_lookup_alter_eq, Ha.
Qed.

Lemma speaker_stops_playing_message_witness :
  playingAudio (st (live (page_after (first_alone ++ [ClickSpeaker 1]))))
  = None
  /\ tasks (page_after (first_alone ++ [ClickSpeaker 1]))
     = tasks (page_after first_alone)
  /\ exists a,
       audio_of (live (page_after first_alone))
                (id (MkMessage first_answer assistant (lit "hello")))
       = Some a
       /\ audio_of (live (page_after (first_alone ++ [ClickSpeaker 1])))
                   (id (MkMessage first_answer assistant (lit "hello")))
          = Some (Audio (src a) true 0).
Proof.
  apply (speaker_stops_playing_message (page_after first_alone) 1
           (MkMessage first_answer assistant (lit "hello"))).
  - exists first_alone. vm_compute. reflexivity.
  - vm_compute. reflexivity.
  - vm_compute. reflexivity.
  - vm_compute. reflexivity.
Defined.

(** X22. Speech is only ever requested for what the assistant said: the
    text of a request in flight is the content of an assistant message of
    the conversation with the id the request is for, and it is not
    blank. *)
Theorem speech_is_of_an_answer p env messageId request :
  reachable p ->
  AwaitTts env messageId request ∈ tasks p ->
  is_answer (messages (st (live p))) messageId (tts_text request)
  /\ blank (tts_text request) = false.
Proof.
  intros Htasks%reachable_tasks_ok Hin.
  rewrite Forall_forall in Htasks. exact (Htasks _ Hin).
Qed.

Lemma speech_is_of_an_answer_witness :
  is_answer (messages (st (live (page_after first_requested)))) first_answer
            (tts_text (TtsRequest (lit "hello") None))
  /\ blank (tts_text (TtsRequest (lit "hello") None)) = false.
Proof.
  apply (speech_is_of_an_answer (page_after first_requested)
           (st (live (page_after two_answers))) first_answer
           (TtsRequest (lit "hello") None)).
  - exists first_requested. vm_compute. reflexivity.
  - vm_compute. apply list_elem_of_singleton. reflexivity.
Defined.

(** X23. Nothing is taken back: whatever happens on the page, the
    conversation it had is a prefix of the conversation it has, and every
    audio element it had is still there with the same bytes. *)
Theorem nothing_is_taken_back p es p' :
  steps p es = Some p' ->
  messages (st (live p)) `prefix_of` messages (st (live p'))
  /\ audio_kept (live p) (live p').
Proof.
  revert p. induction es as [|e es IH]; intros p Hsteps; simpl in Hsteps.
  - injection Hsteps as <-. split; [done|apply audio_kept_refl].
  - destruct (step p e) as [q|] eqn:Hq; [|done].
    destruct (step_keeps p e q Hq) as [Hpre Hkept].
    destruct (IH q Hsteps) as [Hpre' Hkept']. split.
    + by etrans.
    + by eapply audio_kept_trans.
Qed.

Lemma nothing_is_taken_back_witness :
  messages (st (live (page_after first_alone)))
    `prefix_of` messages (st (live (page_after (first_alone
                                                 ++ [ClickSpeaker 1]))))
  /\ audio_kept (live (page_after first_alone))
                (live (page_after (first_alone ++ [ClickSpeaker 1]))).
Proof.
  apply (nothing_is_taken_back (page_after first_alone) [ClickSpeaker 1]).
  vm_compute. reflexivity.
Defined.

End PageFacts.

(** ** From the page to the route *)

Section WireFacts.

Import Chatbot TtsRoute Wire ChatSamples.

Local Open Scope N_scope.

Lemma hex_value_digit d : d < 16 -> hex_value (hex_digit d) = Some d.
Proof.
  intros Hd. unfold hex_value, hex_digit, is_digit.
  destruct (N.ltb_spec d 10).
  - rewrite (proj2 (N.leb_le 48 (48 + d))), (proj2 (N.leb_le (48 + d) 57))
      by lia. simpl. f_equal. lia.
  - replace (48 <=? 87 + d) with true by (symmetry; apply N.leb_le; lia).
    replace (87 + d <=? 57) with false by (symmetry; apply N.leb_gt; lia).
    replace (97 <=? 87 + d) with true by (symmetry; apply N.leb_le; lia).
    replace (87 + d <=? 102) with true by (symmetry; apply N.leb_le; lia).
    simpl. f_equal. lia.
Qed.

Lemma lex_step_hex ts acc k v d :
  d < 16 ->
  lex_step (Lexer ts (LUnicode acc k v)) (hex_digit d)
  = if decide (k = 3%nat) then Lexer ts (LString ((16 * v + d) :: acc))
    else Lexer ts (LUnicode acc (S k) (16 * v + d)).
Proof. intros Hd. unfold lex_step. simpl. by rewrite hex_value_digit. Qed.

Lemma hex_digits_value c :
  c < 65536 ->
  16 * (16 * (16 * (16 * 0 + c / 4096) + (c / 256) mod 16) + (c / 16) mod 16)
    + c mod 16 = c.
Proof. intros Hc. zify. Z.to_euclidean_division_equations. lia. Qed.

Lemma lex_unicode_escape ts acc c :
  c < 65536 ->
  lex_run (Lexer ts (LString acc)) (unicode_escape c)
  = Lexer ts (LString (c :: acc)).
Proof.
  intros Hc. unfold unicode_escape, lex_run.
  cbn [fold_left].
  change (lex_step (Lexer ts (LString acc)) 92) with (Lexer ts (LEscape acc)).
  change (lex_step (Lexer ts (LEscape acc)) 117)
    with (Lexer ts (LUnicode acc 0 0)).
  rewrite lex_step_hex by (apply N.Div0.div_lt_upper_bound; lia).
  rewrite decide_False by done.
  rewrite lex_step_hex by (apply N.mod_lt; lia).
  rewrite decide_False by done.
  rewrite lex_step_hex by (apply N.mod_lt; lia).
  rewrite decide_False by done.
  rewrite lex_step_hex by (apply N.mod_lt; lia).
  rewrite decide_True by done.
  by rewrite hex_digits_value.
Qed.

Lemma lex_step_raw ts acc c :
  32 <= c -> c <> 34 -> c <> 92 ->
  lex_step (Lexer ts (LString acc)) c = Lexer ts (LString (c :: acc)).
Proof.
  intros H32 H34 H92. unfold lex_step. simpl.
  destruct (N.eqb_spec c 34); [done|]. destruct (N.eqb_spec c 92); [done|].
  destruct (N.ltb_spec c 32); [lia|done].
Qed.

Lemma lex_quote_unit ts acc c :
  lex_run (Lexer ts (LString acc)) (quote_unit c)
  = Lexer ts (LString (c :: acc)).
Proof.
  unfold quote_unit.
  destruct (N.eqb_spec c 8) as [->|?]; [reflexivity|].
  destruct (N.eqb_spec c 9) as [->|?]; [reflexivity|].
  destruct (N.eqb_spec c 10) as [->|?]; [reflexivity|].
  destruct (N.eqb_spec c 12) as [->|?]; [reflexivity|].
  destruct (N.eqb_spec c 13) as [->|?]; [reflexivity|].
  destruct (N.eqb_spec c 34) as [->|?]; [reflexivity|].
  destruct (N.eqb_spec c 92) as [->|?]; [reflexivity|].
  destruct (N.ltb_spec c 32).
  - apply lex_unicode_escape. lia.
  - unfold lex_run. simpl. by apply lex_step_raw.
Qed.

Lemma lex_quote_units ts acc flag s :
  lex_run (Lexer ts (LString acc)) (quote_units flag s)
  = Lexer ts (LString (reverse s ++ acc)).
Proof.
  revert acc flag. induction s as [|c s IH]; intros acc flag; [done|].
  rewrite reverse_cons, <- app_assoc. cbn [quote_units app].
  assert (forall x, is_high_surrogate c || is_low_surrogate c = true ->
            lex_run (Lexer ts (LString acc)) (c :: x)
            = lex_run (Lexer ts (LString (c :: acc))) x) as Hraw.
  { intros x Hsur. unfold lex_run at 1. simpl. rewrite lex_step_raw; [done|..];
      unfold is_high_surrogate, is_low_surrogate in Hsur;
      apply orb_true_iff in Hsur as [H|H];
      apply andb_true_iff in H as [H1%N.leb_le H2%N.leb_le]; lia. }
  destruct (is_high_surrogate c && _) eqn:Hpair.
  { apply andb_true_iff in Hpair as [Hh _].
    rewrite Hraw by (by rewrite Hh). apply IH. }
  destruct (is_low_surrogate c && flag) eqn:Hlow.
  { apply andb_true_iff in Hlow as [Hl _].
    rewrite Hraw by (by rewrite Hl, orb_true_r). apply IH. }
  destruct (is_high_surrogate c || is_low_surrogate c) eqn:Hsur.
  - rewrite lex_run_app, lex_unicode_escape; [apply IH|].
    unfold is_high_surrogate, is_low_surrogate in Hsur.
    apply orb_true_iff in Hsur as [H|H];
      apply andb_true_iff in H as [H1%N.leb_le H2%N.leb_le]; lia.
  - rewrite lex_run_app, lex_quote_unit. apply IH.
Qed.

(** A quoted string is read back as one string token. *)
Lemma lex_quoted ts s rest :
  lex_run (Lexer ts LStart) (QuoteJSONString s ++ rest)
  = lex_run (Lexer (TString s :: ts) LStart) rest.
Proof.
  unfold QuoteJSONString. rewrite <- app_comm_cons, <- app_assoc.
  unfold lex_run at 1. cbn [fold_left].
  change (lex_step (Lexer ts LStart) 34) with (Lexer ts (LString [])).
  change (fold_left lex_step ?x ?l) with (lex_run l x).
  rewrite lex_run_app, lex_quote_units, app_nil_r. simpl.
  unfold lex_step at 1. simpl. by rewrite reverse_involutive.
Qed.

Lemma lex_char ts c rest :
  lex_run (Lexer ts LStart) (c :: rest) = lex_run (lex_start ts c) rest.
Proof. reflexivity. Qed.

Lemma tokenize_tts_body request :
  tokenize (tts_body request)
  = Some ([TLBrace; TString (lit "text"); TColon;
           TString (tts_text request)]
            ++ match tts_voice request with
               | Some v => [TComma; TString (lit "voice"); TColon; TString v]
               | None => []
               end
            ++ [TRBrace]).
Proof.
  unfold tokenize, tts_body.
  change (lit "{") with [123]. change (lit ":") with [58].
  change (lit ",") with [44]. change (lit "}") with [125].
  destruct (tts_voice request) as [v|]; rewrite <- ?app_assoc; cbn [app].
  - rewrite lex_char.
    change (lex_start [] 123) with (Lexer [TLBrace] LStart).
    rewrite lex_quoted, lex_char.
    change (lex_start ?ts 58) with (Lexer (TColon :: ts) LStart).
    rewrite lex_quoted, lex_char.
    change (lex_start ?ts 44) with (Lexer (TComma :: ts) LStart).
    rewrite lex_quoted, lex_char.
    change (lex_start ?ts 58) with (Lexer (TColon :: ts) LStart).
    rewrite lex_quoted. reflexivity.
  - rewrite lex_char.
    change (lex_start [] 123) with (Lexer [TLBrace] LStart).
    rewrite lex_quoted, lex_char.
    change (lex_start ?ts 58) with (Lexer (TColon :: ts) LStart).
    rewrite lex_quoted. reflexivity.
Qed.

Lemma JSON_parse_tts_body request :
  JSON_parse (tts_body request)
  = Some (JObject
            ((lit "text", JString (tts_text request))
               :: match tts_voice request with
                  | Some v => [(lit "voice", JString v)]
                  | None => []
                  end)).
Proof.
  unfold JSON_parse. rewrite tokenize_tts_body.
  by destruct (tts_voice request).
Qed.


(** X25. The route lets every request of the page past its validation: for
    a call of [generateTTS] that gets as far as its request, the handler,
    given the body that [JSON.stringify] produces, answers neither 400 nor
    500; it calls [spawn] with exactly the text of the call and with the
    voice of the render, the empty selector standing for no voice and for
    ['default'].  The child is launched unless the text or the voice holds
    U+0000: then [spawn] throws and the promise is rejected. *)
Theorem page_request_is_accepted env text messageId w w' request :
  generateTTS_start env text messageId w = (w', Some request) ->
  let voice := if bool_decide (selectedVoice env = lit "default")
               then [] else selectedVoice env in
  POST (tts_body request)
  = if bool_decide (0%N ∈ text) || bool_decide (0%N ∈ voice)
    then SpawnThrew
    else Launched (Some (JString text)) (JString voice).
Proof.
  unfold generateTTS_start.
  destruct (is_empty (trim text)) eqn:Htext; [done|]. intros [= _ <-].
  assert (is_empty text = false) as Hne by (by destruct text).
  unfold POST. rewrite JSON_parse_tts_body. cbn [tts_text tts_voice].
  destruct (selectedVoice env) as [|c v] eqn:Hvoice; cbn [is_empty].
  - simpl. rewrite Hne. done.
  - simpl. rewrite Hne. simpl. unfold voicePath. simpl.
    by destruct (bool_decide (c :: v = lit "default")).
Qed.

Lemma page_request_is_accepted_witness :
  POST (tts_body (TtsRequest (lit "hello") None))
  = Launched (Some (JString (lit "hello"))) (JString []).
Proof.
  apply (page_request_is_accepted initial_state (lit "hello") first_answer
           initial_world
           (setGeneratingAudio (Some first_answer) initial_world)
           (TtsRequest (lit "hello") None)).
  vm_compute. reflexivity.
Defined.

End WireFacts.
